(** * ci-operator: step links, step graphs, partial graphs and two steps

    A shallow embedding of package [api] (the link-matching model
    [StepLink] and [Matches], [BuildGraph], [addToNode], [HasAnyLinks] and
    [BuildPartialGraph]) and of package [steps] (the functions of
    [release_images.go] on image streams, [componentToParamName],
    [createReleaseConfigMap], and the methods of [inputImageTagStep]), with
    the properties of them that the specification states and others that
    the code shows.

    Go pointers to [StepNode] values are modelled as addresses (indices) into
    an explicit store of nodes, since [addToNode] compares nodes by identity
    and mutates the children of a shared node.  The methods that call a
    client are functions on an explicit state of the cluster, with the
    client as a record of functions. *)

From Stdlib Require Import String Ascii List Arith Bool Lia Sorted.
From stdpp Require Import base list strings gmap.

Local Open Scope string_scope.
Local Open Scope list_scope.

(** ** Links *)

(** Modelled from the spec: the struct [ImageStreamTagReference] is declared
    outside the given sources; [Matches] reads its three string fields
    [Name], [Namespace] and [Tag]. *)
Module ImageStreamTagReference.
Record t := { Namespace : string; Name : string; Tag : string }.
End ImageStreamTagReference.

(** Modelled from the spec: [PipelineImageStreamTagReference] is declared
    outside the given sources; it is a comparable tag reference, a string,
    and [==] on it is string equality. *)
Definition PipelineImageStreamTagReference := string.

(** The five link implementations of the package as a tagged union: the
    type switch of each [Matches] method becomes a pattern matching. *)
Inductive StepLink :=
| externalImageLink (image : ImageStreamTagReference.t)
| internalImageLink (image : PipelineImageStreamTagReference)
| imagesReadyLink
| rpmRepoLink
| releaseImagesLink.

Definition ExternalImageLink (ref : ImageStreamTagReference.t) : StepLink :=
  externalImageLink ref.
Definition InternalImageLink (ref : PipelineImageStreamTagReference) : StepLink :=
  internalImageLink ref.
Definition ImagesReadyLink : StepLink := imagesReadyLink.
Definition RPMRepoLink : StepLink := rpmRepoLink.
Definition ReleaseImagesLink : StepLink := releaseImagesLink.

(** [l.Matches(other)]: dispatch on the receiver, then its type switch. *)
Definition Matches (l other : StepLink) : bool :=
  match l with
  | externalImageLink image =>
      match other with
      | externalImageLink link =>
          String.eqb (ImageStreamTagReference.Name image)
                     (ImageStreamTagReference.Name link) &&
          String.eqb (ImageStreamTagReference.Namespace image)
                     (ImageStreamTagReference.Namespace link) &&
          String.eqb (ImageStreamTagReference.Tag image)
                     (ImageStreamTagReference.Tag link)
      | _ => false
      end
  | internalImageLink image =>
      match other with
      | internalImageLink link => String.eqb image link
      | _ => false
      end
  | imagesReadyLink =>
      match other with imagesReadyLink => true | _ => false end
  | rpmRepoLink =>
      match other with rpmRepoLink => true | _ => false end
  | releaseImagesLink =>
      match other with releaseImagesLink => true | _ => false end
  end.

(** Which of the five implementations a link is. *)
Inductive LinkKind :=
| KExternal | KInternal | KImagesReady | KRPMRepo | KReleaseImages.

Definition kind (l : StepLink) : LinkKind :=
  match l with
  | externalImageLink _ => KExternal
  | internalImageLink _ => KInternal
  | imagesReadyLink => KImagesReady
  | rpmRepoLink => KRPMRepo
  | releaseImagesLink => KReleaseImages
  end.

(** ** Steps and nodes *)

(** The part of the [Step] interface that the graph code calls: [Name],
    [Requires] and [Creates].  The answers of a step do not change between
    calls, so a step is the record of its answers. *)
Record Step := {
  Name : string;
  Requires : list StepLink;
  Creates : list StepLink
}.

(** Two steps of package [steps]: what their [Name], [Requires] and
    [Creates] methods return. *)

Definition inputImageTagStep (baseImage : ImageStreamTagReference.t)
    (to : PipelineImageStreamTagReference) : Step :=
  {| Name := "";
     Requires := [ExternalImageLink baseImage];
     Creates := [InternalImageLink to] |}.

Definition releaseImagesTagStep : Step :=
  {| Name := ""; Requires := []; Creates := [ReleaseImagesLink] |}.


Definition srcStep : Step :=
  {| Name := "src"; Requires := []; Creates := [InternalImageLink "src"] |}.

Definition binStep : Step :=
  {| Name := "bin"; Requires := [InternalImageLink "src"];
     Creates := [InternalImageLink "bin"] |}.

Definition testStep : Step :=
  {| Name := "test"; Requires := [InternalImageLink "src"];
     Creates := [InternalImageLink "test"] |}.

Definition srcBinTest : list Step := [srcStep; binStep; testStep].

(** A [*StepNode] is an address into the store of the nodes allocated by
    one call of [BuildGraph]. *)
Abbreviation NodeRef := nat (only parsing).

Record StepNode := {
  NodeStep : Step;
  Children : list NodeRef
}.

(** What [BuildGraph] returns: the slice of root pointers, with the store
    they point into. *)
Record Graph := {
  Nodes : list StepNode;
  Roots : list NodeRef
}.

(** The graph of [src] and [test]: the root [src] with the child [test]. *)
Definition srcTestGraph : Graph :=
  {| Nodes := [ {| NodeStep := srcStep; Children := [1] |};
                {| NodeStep := testStep; Children := [] |} ];
     Roots := [0] |}.

(** [for i, x := range l { st = body i x st }], from index [i]. *)
Fixpoint forRange {A St : Type} (body : nat -> A -> St -> St)
    (i : nat) (l : list A) (st : St) : St :=
  match l with
  | [] => st
  | x :: l' => forRange body (S i) l' (body i x st)
  end.

(** [addToNode(parent, child)]: the scan of [parent.Children] for the
    pointer [child], then the append.  The store comes back with the
    boolean. A dangling [parent] cannot occur; the store is then left
    as it is. *)
Definition addToNode (parent child : NodeRef) (h : list StepNode)
    : list StepNode * bool :=
  match h !! parent with
  | Some p =>
      if existsb (Nat.eqb child) (Children p) then (h, false)
      else (<[parent := {| NodeStep := NodeStep p;
                           Children := Children p ++ [child] |}]> h, true)
  | None => (h, false)
  end.

Definition requiresOf (h : list StepNode) (n : NodeRef) : list StepLink :=
  match h !! n with Some nd => Requires (NodeStep nd) | None => [] end.

Definition createsOf (h : list StepNode) (n : NodeRef) : list StepLink :=
  match h !! n with Some nd => Creates (NodeStep nd) | None => [] end.

(** The body of the innermost loop of [BuildGraph]; the state is the store
    and [isRoot]. *)
Definition linkStep (other node : NodeRef) (nodeRequires : StepLink)
    (st : list StepNode * bool) (otherCreates : StepLink)
    : list StepNode * bool :=
  if Matches nodeRequires otherCreates
  then (fst (addToNode other node (fst st)), false)
  else st.

(** The three loops of [BuildGraph] below [for _, node := range allNodes],
    for one [node]: over [other], over [node.Step.Requires()] and over
    [other.Step.Creates()]. *)
Definition scanOther (node : NodeRef) (st : list StepNode * bool)
    (other : NodeRef) : list StepNode * bool :=
  foldl (fun st nodeRequires =>
           foldl (linkStep other node nodeRequires) st
                 (createsOf (fst st) other))
        st (requiresOf (fst st) node).

Definition scanNode (allNodes : list NodeRef) (h : list StepNode)
    (node : NodeRef) : list StepNode * bool :=
  foldl (scanOther node) (h, true) allNodes.

Definition allocNodes (steps : list Step) : list StepNode :=
  map (fun step => {| NodeStep := step; Children := [] |}) steps.

Definition BuildGraph (steps : list Step) : Graph :=
  let allNodes := seq 0 (length steps) in
  let '(h, roots) :=
    foldl (fun '(h, roots) node =>
             let '(h', isRoot) := scanNode allNodes h node in
             (h', if isRoot then roots ++ [node] else roots))
          (allocNodes steps, []) allNodes in
  {| Nodes := h; Roots := roots |}.

(** ** What [BuildGraph] computes, by index *)

Definition anyMatch (requires creates : list StepLink) : bool :=
  existsb (fun r => existsb (Matches r) creates) requires.

Definition requiresAt (steps : list Step) (n : nat) : list StepLink :=
  match steps !! n with Some s => Requires s | None => [] end.

Definition createsAt (steps : list Step) (n : nat) : list StepLink :=
  match steps !! n with Some s => Creates s | None => [] end.

(** [feeds steps other node]: a link that step [node] requires matches a
    link that step [other] creates. *)
Definition feeds (steps : list Step) (other node : nat) : bool :=
  anyMatch (requiresAt steps node) (createsAt steps other).

Definition childrenUpTo (steps : list Step) (k p : nat) : list NodeRef :=
  List.filter (feeds steps p) (seq 0 k).

Definition isRootAt (steps : list Step) (node : nat) : bool :=
  forallb (fun other => negb (feeds steps other node)) (seq 0 (length steps)).

Definition graphOf (steps : list Step) : Graph :=
  {| Nodes := imap (fun p s => {| NodeStep := s;
                                  Children := childrenUpTo steps (length steps) p |})
                   steps;
     Roots := List.filter (isRootAt steps) (seq 0 (length steps)) |}.

(** The store while [BuildGraph] runs: node [k] has been checked against
    the nodes below [i], the nodes below [k] against all of them. *)
Definition midInv (steps : list Step) (k i : nat) (h : list StepNode) : Prop :=
  length h = length steps /\
  forall p s, steps !! p = Some s ->
    h !! p = Some {| NodeStep := s;
                     Children := childrenUpTo steps k p ++
                       (if (p <? i)%nat && feeds steps p k then [k] else []) |}.

(** [addToNode] on the node it changes. *)
Definition addChild (child : NodeRef) (nd : StepNode) : StepNode :=
  if existsb (Nat.eqb child) (Children nd) then nd
  else {| NodeStep := NodeStep nd; Children := Children nd ++ [child] |}.

(** [HasAnyLinks(steps, candidates)]: the two loops with their early
    return. *)
Definition HasAnyLinks (steps candidates : list StepLink) : bool :=
  existsb (fun candidate =>
             existsb (fun step => Matches step candidate) steps)
          candidates.

(** ** Partial graphs *)

(** The state of [BuildPartialGraph]: the [candidates] flags, the
    [required] links and what is left of [names]. *)
Record Selection := {
  candidates : list bool;
  required : list StepLink;
  names : list string
}.

(** [for j, name := range names]: the first [j] with
    [names[j] == step.Name()], where the loop breaks. *)
Fixpoint findName (stepName : string) (names : list string) : option nat :=
  match names with
  | [] => None
  | name :: rest =>
      if negb (String.eqb name stepName)
      then option_map S (findName stepName rest)
      else Some 0
  end.

(** The body of the first loop over [steps]. *)
Definition seedStep (i : nat) (step : Step) (st : Selection) : Selection :=
  match findName (Name step) (names st) with
  | Some j =>
      {| candidates := <[i := true]> (candidates st);
         required := required st ++ Requires step;
         names := delete j (names st) |}
  | None => st
  end.

Definition seed (steps : list Step) (names : list string) : Selection :=
  forRange seedStep 0 steps
    {| candidates := replicate (length steps) false;
       required := [];
       names := names |}.

(** The body of the scan inside the closure loop; the state carries
    [added]. *)
Definition closeStep (i : nat) (step : Step) (st : Selection * nat)
    : Selection * nat :=
  let '(sel, added) := st in
  if default false (candidates sel !! i) then st
  else if HasAnyLinks (required sel) (Creates step)
  then ({| candidates := <[i := true]> (candidates sel);
           required := required sel ++ Requires step;
           names := names sel |}, S added)
  else st.

Definition closePass (steps : list Step) (sel : Selection) : Selection * nat :=
  forRange closeStep 0 steps (sel, 0).

(** The [for { ... }] loop: [fuel] bounds the number of passes, and [None]
    is the loop still running when the fuel is spent. *)
Fixpoint closeLoop (fuel : nat) (steps : list Step) (sel : Selection)
    : option Selection :=
  match fuel with
  | 0 => None
  | S fuel' =>
      let '(sel', added) := closePass steps sel in
      if Nat.eqb added 0 then Some sel' else closeLoop fuel' steps sel'
  end.

(** [for i, candidate := range candidates]: the targeted steps. *)
Definition targetStep (steps : list Step) (i : nat) (candidate : bool)
    (targeted : list Step) : list Step :=
  if candidate
  then match steps !! i with
       | Some step => targeted ++ [step]
       | None => targeted
       end
  else targeted.

Definition targetedSteps (steps : list Step) (cands : list bool) : list Step :=
  forRange (targetStep steps) 0 cands [].

(** [strings.Join(names, ", ")] after the fixed text of the error. *)
Definition notFoundError (names : list string) : string :=
  "the following names were not found in the config or were duplicates: "
  ++ String.concat ", " names.

(** [BuildPartialGraph] returns a graph or an error, never both; [None] is
    the closure loop out of fuel. *)
Definition BuildPartialGraphFuel (fuel : nat) (steps : list Step)
    (names0 : list string) : option (Graph + string) :=
  if Nat.eqb (length names0) 0 then Some (inl (BuildGraph steps))
  else
    let sel := seed steps names0 in
    if Nat.ltb 0 (length (names sel))
    then Some (inr (notFoundError (names sel)))
    else
      match closeLoop fuel steps sel with
      | Some sel' =>
          Some (inl (BuildGraph (targetedSteps steps (candidates sel'))))
      | None => None
      end.

(** As many passes as there are steps are enough: see
    [BuildPartialGraph_total] and [BuildPartialGraphFuel_stable]. *)
Definition BuildPartialGraph (steps : list Step) (names0 : list string)
    : option (Graph + string) :=
  BuildPartialGraphFuel (length steps) steps names0.

(** ** What the two loops of [BuildPartialGraph] compute *)

(** [names] after the first occurrence of [stepName] is removed. *)
Fixpoint consume (stepName : string) (names : list string) : list string :=
  match names with
  | [] => []
  | name :: rest =>
      if String.eqb name stepName then rest else name :: consume stepName rest
  end.

(** How many steps have the name [name]. *)
Definition stepsNamed (name : string) (steps : list Step) : nat :=
  length (List.filter (fun s => String.eqb (Name s) name) steps).

(** How many flags of [candidates] are set. *)
Definition marked (cands : list bool) : nat :=
  length (List.filter (fun c => c) cands).

(** [needed steps seeds j]: step [j] is a seed, or it creates a link that
    matches a link that a needed step requires. *)
Inductive needed (steps : list Step) (seeds : list bool) : nat -> Prop :=
| needed_seed j : seeds !! j = Some true -> needed steps seeds j
| needed_producer i j :
    needed steps seeds i -> j < length steps -> feeds steps j i = true ->
    needed steps seeds j.

(** [required] has the links that the flagged steps require, and only
    those. *)
Definition coversMarked (steps : list Step) (sel : Selection) : Prop :=
  forall i r, candidates sel !! i = Some true ->
    In r (requiresAt steps i) -> In r (required sel).

Definition requiredByMarked (steps : list Step) (sel : Selection) : Prop :=
  forall r, In r (required sel) ->
    exists i, candidates sel !! i = Some true /\ In r (requiresAt steps i).

(** What holds of the selection during the closure loop that started from
    the flags [seeds]. *)
Definition closing (steps : list Step) (seeds : list bool) (sel : Selection)
    : Prop :=
  length (candidates sel) = length steps /\
  (forall j, seeds !! j = Some true -> candidates sel !! j = Some true) /\
  coversMarked steps sel /\ requiredByMarked steps sel /\
  (forall j, candidates sel !! j = Some true -> needed steps seeds j).

(** No step without a flag creates a link that matches a required one. *)
Definition closed (steps : list Step) (sel : Selection) : Prop :=
  forall k x, steps !! k = Some x -> candidates sel !! k = Some false ->
    HasAnyLinks (required sel) (Creates x) = false.

(** ** The graph as a forest *)

#[warnings="-register-all"]
Inductive Tree := TreeNode (step : Step) (children : list Tree).

(** The tree below node [n], unfolded to depth [depth]: the pointers of a
    graph with a cycle below a root do not end, the unfolding does. *)
Fixpoint treeAt (depth : nat) (h : list StepNode) (n : NodeRef) : list Tree :=
  match depth with
  | 0 => []
  | S d =>
      match h !! n with
      | Some nd => [TreeNode (NodeStep nd) (flat_map (treeAt d h) (Children nd))]
      | None => []
      end
  end.

Definition forest (g : Graph) : list Tree :=
  flat_map (treeAt (length (Nodes g)) (Nodes g)) (Roots g).

(** [child g p c]: node [c] is in the [Children] of node [p]. *)
Definition child (g : Graph) (p c : NodeRef) : Prop :=
  exists nd, Nodes g !! p = Some nd /\ In c (Children nd).


(** [inForest g n]: node [n] is in one of the returned trees. *)
Inductive inForest (g : Graph) : NodeRef -> Prop :=
| inForest_root r : In r (Roots g) -> inForest g r
| inForest_child p c : inForest g p -> child g p c -> inForest g c.

(** ** Package [steps]: image streams, [findStatusTag], [resolvePullSpec] *)

(** The fields of the image API objects that the functions of
    [release_images.go] read or write; the types are those of the
    OpenShift and Kubernetes client libraries. *)
Record TagEvent := {
  DockerImageReference : string;
  Image : string
}.

Record NamedTagEventList := {
  EventTag : string;
  Items : list TagEvent
}.

Record ObjectReference := {
  Kind : string;
  RefNamespace : string;
  RefName : string
}.

Record TagReference := {
  TagName : string;
  From : option ObjectReference;
  ReferencePolicy : string
}.

Record ImageStream := {
  StreamName : string;
  StreamNamespace : string;
  SpecTags : list TagReference;
  DockerImageRepository : string;
  PublicDockerImageRepository : string;
  StatusTags : list NamedTagEventList
}.

(** A stream for the examples: the status has an entry without items for
    [base], then two entries for [latest], the first with an image. *)
Definition originStream : ImageStream :=
  {| StreamName := "origin"; StreamNamespace := "openshift";
     SpecTags := []; DockerImageRepository := "";
     PublicDockerImageRepository := "";
     StatusTags :=
       [ {| EventTag := "base"; Items := [] |};
         {| EventTag := "latest";
            Items := [ {| DockerImageReference := "registry/origin@sha256:0a";
                          Image := "sha256:0a" |} ] |};
         {| EventTag := "latest"; Items := [] |} ] |}.

(** The object that [findStatusTag] returns for the entry [t] of
    [is.Status.Tags] whose tag is the one looked for. *)
Definition statusTagRef (istream : ImageStream) (t : NamedTagEventList)
    : option ObjectReference :=
  match Items t with
  | [] => None
  | item :: _ =>
      if Nat.eqb (String.length (Image item)) 0
      then Some {| Kind := "DockerImage"; RefNamespace := "";
                   RefName := DockerImageReference item |}
      else Some {| Kind := "ImageStreamImage";
                   RefNamespace := StreamNamespace istream;
                   RefName := (StreamName istream ++ "@" ++ Image item)%string |}
  end.

(** [for _, t := range is.Status.Tags] of [findStatusTag], from the entries
    [tags] on; [None] is the nil pointer. *)
Fixpoint findStatusTagFrom (istream : ImageStream) (tags : list NamedTagEventList)
    (tag : string) : option ObjectReference :=
  match tags with
  | [] => None
  | t :: rest =>
      if negb (String.eqb (EventTag t) tag)
      then findStatusTagFrom istream rest tag
      else statusTagRef istream t
  end.

Definition findStatusTag (istream : ImageStream) (tag : string)
    : option ObjectReference :=
  findStatusTagFrom istream (StatusTags istream) tag.

(** The loop of [resolvePullSpec]: [Some] is a [return] from inside the
    loop, [None] the loop left by [break] or at its end. *)
Fixpoint resolvePullSpecFrom (istream : ImageStream) (tags : list NamedTagEventList)
    (tag : string) : option (string * bool) :=
  match tags with
  | [] => None
  | t :: rest =>
      if negb (String.eqb (EventTag t) tag)
      then resolvePullSpecFrom istream rest tag
      else
        match Items t with
        | [] => None
        | item :: _ =>
            let image := Image item in
            if Nat.ltb 0 (String.length image)
            then
              if Nat.ltb 0 (String.length (PublicDockerImageRepository istream))
              then Some ((PublicDockerImageRepository istream ++ "@" ++ image)%string,
                         true)
              else if Nat.ltb 0 (String.length (DockerImageRepository istream))
              then Some ((DockerImageRepository istream ++ "@" ++ image)%string, true)
              else None
            else None
        end
  end.

Definition resolvePullSpec (istream : ImageStream) (tag : string) : string * bool :=
  match resolvePullSpecFrom istream (StatusTags istream) tag with
  | Some r => r
  | None =>
      if Nat.ltb 0 (String.length (PublicDockerImageRepository istream))
      then ((PublicDockerImageRepository istream ++ ":" ++ tag)%string, true)
      else if Nat.ltb 0 (String.length (DockerImageRepository istream))
      then ((DockerImageRepository istream ++ ":" ++ tag)%string, true)
      else ("", false)
  end.

(** The loop of [Run] that fills [newIS.Spec.Tags] (the branch of a
    configured stream name): a tag of the spec is copied when
    [findStatusTag] finds an object for it. *)
Definition copyStableTags (istream : ImageStream) : list TagReference :=
  fold_left (fun tags tag =>
               match findStatusTag istream (TagName tag) with
               | Some valid =>
                   tags ++ [{| TagName := TagName tag; From := Some valid;
                            ReferencePolicy := "" |}]
               | None => tags
               end)
            (SpecTags istream) [].

(** Modelled from the spec: [ReleaseTagConfiguration] is declared in package
    [api], outside the given sources; [sourceName] reads its fields
    [Namespace], [Name] and [Tag]. *)
Module ReleaseTagConfiguration.
Record t := { Namespace : string; Name : string; Tag : string }.
End ReleaseTagConfiguration.

Definition sourceName (config : ReleaseTagConfiguration.t) : string :=
  if Nat.ltb 0 (String.length (ReleaseTagConfiguration.Name config))
  then (ReleaseTagConfiguration.Namespace config ++ "/"
        ++ ReleaseTagConfiguration.Name config ++ ":${component}")%string
  else (ReleaseTagConfiguration.Namespace config ++ "/${component}:"
        ++ ReleaseTagConfiguration.Tag config)%string.

(** The repository that [resolvePullSpec] writes: the public one when it
    is set, else the internal one. *)
Definition pullRepository (istream : ImageStream) : string :=
  if Nat.ltb 0 (String.length (PublicDockerImageRepository istream))
  then PublicDockerImageRepository istream
  else DockerImageRepository istream.

(** The first entry of the status for [tag]. *)
Definition statusEntry (istream : ImageStream) (tag : string)
    : option NamedTagEventList :=
  List.find (fun t => String.eqb (EventTag t) tag) (StatusTags istream).

(** The image id of the first item of the first entry for [tag], when there
    is one and it is not empty. *)
Definition knownImage (istream : ImageStream) (tag : string) : option string :=
  match statusEntry istream tag with
  | Some t =>
      match Items t with
      | item :: _ =>
          if Nat.ltb 0 (String.length (Image item)) then Some (Image item)
          else None
      | [] => None
      end
  | None => None
  end.

(** The scan of [stableImageStream.Status.Tags] in [Run] (the branch
    without a stream name) that sets [id] for the target tag: every entry
    of the tag overwrites [id] with the image of its first item.  [None] is
    the run-time panic of [tagStatus.Items[0]] on an entry without items. *)
Fixpoint backingImageFrom (tags : list NamedTagEventList) (targetTag : string)
    (id : string) : option string :=
  match tags with
  | [] => Some id
  | tagStatus :: rest =>
      if String.eqb (EventTag tagStatus) targetTag
      then match Items tagStatus with
           | item :: _ => backingImageFrom rest targetTag (Image item)
           | [] => None
           end
      else backingImageFrom rest targetTag id
  end.

(** What [Run] does with the [id]: an empty one is the error [no image
    found backing ...], another one is used for the tag. *)
Inductive Backing :=
| BackingPanic
| BackingError (message : string)
| BackingImage (id : string).

Definition backingImage (stableImageStream : ImageStream) (targetTag : string)
    : Backing :=
  match backingImageFrom (StatusTags stableImageStream) targetTag "" with
  | None => BackingPanic
  | Some id =>
      if Nat.eqb (String.length id) 0
      then BackingError ("no image found backing "
                         ++ StreamNamespace stableImageStream ++ "/"
                         ++ StreamName stableImageStream ++ ":" ++ targetTag)
      else BackingImage id
  end.

(** ** [componentToParamName] *)

Fixpoint mapBytes (f : ascii -> ascii) (s : string) : string :=
  match s with
  | EmptyString => EmptyString
  | String c rest => String (f c) (mapBytes f rest)
  end.

Fixpoint allBytes (f : ascii -> bool) (s : string) : bool :=
  match s with
  | EmptyString => true
  | String c rest => f c && allBytes f rest
  end.

(** A byte below [utf8.RuneSelf]. *)
Definition isASCII (c : ascii) : bool := Nat.ltb (nat_of_ascii c) 128.

Definition isLower (c : ascii) : bool :=
  Nat.leb 97 (nat_of_ascii c) && Nat.leb (nat_of_ascii c) 122.

Definition isUpper (c : ascii) : bool :=
  Nat.leb 65 (nat_of_ascii c) && Nat.leb (nat_of_ascii c) 90.

Definition isDigit (c : ascii) : bool :=
  Nat.leb 48 (nat_of_ascii c) && Nat.leb (nat_of_ascii c) 57.

(** [strings.Replace(s, "-", "_", -1)]: the one-byte pattern is replaced at
    every byte where it occurs. *)
Definition replaceDashes (s : string) : string :=
  mapBytes (fun c => if Ascii.eqb c "-" then "_"%char else c) s.

(** The loop of [strings.ToUpper] over the bytes of an ASCII string: the
    letters [a] to [z] lose 32, the other bytes stay. *)
Definition toUpperASCII (s : string) : string :=
  mapBytes (fun c => if isLower c then ascii_of_nat (nat_of_ascii c - 32)
                     else c) s.

(** [strings.ToUpper]: a string of ASCII bytes is mapped byte by byte (a
    string without lower-case letter is then returned as it is); a string
    with a byte from [utf8.RuneSelf] on is mapped rune by rune with the
    tables of package [unicode], which are not part of the sources:
    [mapRunes] stands for [strings.Map(unicode.ToUpper, s)]. *)
Definition ToUpper (mapRunes : string -> string) (s : string) : string :=
  if allBytes isASCII s then toUpperASCII s else mapRunes s.

Definition componentToParamName (mapRunes : string -> string)
    (component : string) : string :=
  ToUpper mapRunes (replaceDashes component).

(** ** Package [steps]: the methods of [inputImageTagStep] *)

(** An [error]: what [errors.IsNotFound] and [errors.IsAlreadyExists] answer
    on it, and its text. *)
Record GoError := {
  IsNotFound : bool;
  IsAlreadyExists : bool;
  ErrorText : string
}.

(** [fmt.Errorf] makes an error that is neither of the two API errors. *)
Definition Errorf (text : string) : GoError :=
  {| IsNotFound := false; IsAlreadyExists := false; ErrorText := text |}.

(** The fields of [imageapi.ImageStreamTag] that the step writes and
    reads. *)
Record ImageStreamTag := {
  ObjectName : string;
  ObjectNamespace : string;
  TagSpec : option TagReference;
  ImageName : string
}.

(** What the step is given and does not define: the client of the image
    stream tags of a namespace, whose calls answer from the state of the
    cluster and may change it, [json.Marshal] on an image stream tag, and
    the constant [PipelineImageStream] of the package, which is declared
    outside the given sources. *)
Record Env (World : Type) := {
  getImageStreamTag :
    string -> string -> World -> (ImageStreamTag + GoError) * World;
  createImageStreamTag :
    string -> ImageStreamTag -> World -> (ImageStreamTag + GoError) * World;
  marshalJSON : ImageStreamTag -> string + GoError;
  PipelineImageStream : string
}.
Arguments getImageStreamTag {World}.
Arguments createImageStreamTag {World}.
Arguments marshalJSON {World}.
Arguments PipelineImageStream {World}.

(** What a call does that can be seen from outside, in order: lines of the
    log, text on the standard output, calls of the client. *)
Inductive Event :=
| Logged (line : string)
| Printed (text : string)
| CalledGet (namespace name : string)
| CalledCreate (namespace : string) (ist : ImageStreamTag)
| CalledGetImageStream (namespace name : string)
| CalledGetRoute (namespace name : string)
| CalledGetConfigMap (namespace name : string)
| CalledCreateConfigMap (namespace name : string)
    (data : gmap string string).

Module InputImageTag.

(** The fields of [inputImageTagStep] without the client: the configuration
    ([config.BaseImage], [config.To]), the namespace that
    [jobSpec.Namespace()] returns, and the memoized [imageName]. *)
Record step := {
  BaseImage : ImageStreamTagReference.t;
  To : PipelineImageStreamTagReference;
  JobNamespace : string;
  imageName : string
}.

(** The step, the cluster and what has been seen so far. *)
Record state (World : Type) := {
  self : step;
  world : World;
  events : list Event
}.
Arguments self {World}.
Arguments world {World}.
Arguments events {World}.

Definition emit {World} (e : Event) (st : state World) : state World :=
  {| self := self st; world := world st; events := events st ++ [e] |}.

Definition baseImageName (s : step) : string :=
  (ImageStreamTagReference.Name (BaseImage s) ++ ":"
   ++ ImageStreamTagReference.Tag (BaseImage s))%string.

Definition Inputs {World} (env : Env World) (dry : bool) (st : state World)
    : (list string + GoError) * state World :=
  let s := self st in
  if Nat.ltb 0 (String.length (imageName s)) then (inl [imageName s], st)
  else
    let namespace := ImageStreamTagReference.Namespace (BaseImage s) in
    let st1 := emit (CalledGet namespace (baseImageName s)) st in
    let '(res, w) := getImageStreamTag env namespace (baseImageName s)
                                       (world st1) in
    match res with
    | inr err =>
        (inr (Errorf ("could not resolve base image: " ++ ErrorText err)),
         {| self := s; world := w; events := events st1 |})
    | inl from =>
        (inl [ImageName from],
         {| self := {| BaseImage := BaseImage s; To := To s;
                       JobNamespace := JobNamespace s;
                       imageName := ImageName from |};
            world := w;
            events := events st1 ++
              [Logged ("Resolved " ++ namespace ++ "/"
                       ++ ImageStreamTagReference.Name (BaseImage s) ++ ":"
                       ++ ImageStreamTagReference.Tag (BaseImage s) ++ " to "
                       ++ ImageName from)] |})
    end.

(** The object that [Run] creates. *)
Definition pipelineTag {World} (env : Env World) (s : step) : ImageStreamTag :=
  {| ObjectName := (PipelineImageStream env ++ ":" ++ To s)%string;
     ObjectNamespace := JobNamespace s;
     TagSpec := Some
       {| TagName := "";
          From := Some
            {| Kind := "ImageStreamImage";
               RefNamespace := ImageStreamTagReference.Namespace (BaseImage s);
               RefName := (ImageStreamTagReference.Name (BaseImage s) ++ "@"
                           ++ imageName s)%string |};
          ReferencePolicy := "Local" |};
     ImageName := "" |}.

(** [Run]: [None] is the nil error. *)
Definition Run {World} (env : Env World) (dry : bool) (st : state World)
    : option GoError * state World :=
  let s0 := self st in
  let st0 := emit (Logged ("Tagging "
                   ++ ImageStreamTagReference.Namespace (BaseImage s0) ++ "/"
                   ++ ImageStreamTagReference.Name (BaseImage s0) ++ ":"
                   ++ ImageStreamTagReference.Tag (BaseImage s0) ++ " into "
                   ++ PipelineImageStream env ++ ":" ++ To s0)) st in
  let '(res, st1) := Inputs env dry st0 in
  match res with
  | inr err => (Some err, st1)
  | inl _ =>
      let ist := pipelineTag env (self st1) in
      if dry then
        match marshalJSON env ist with
        | inr err =>
            (Some (Errorf ("failed to marshal imagestreamtag: "
                           ++ ErrorText err)), st1)
        | inl istJSON =>
            (None, emit (Printed (istJSON ++ String "010" "")) st1)
        end
      else
        let st2 := emit (CalledCreate (JobNamespace (self st1)) ist) st1 in
        let '(res2, w) := createImageStreamTag env (JobNamespace (self st1))
                                               ist (world st2) in
        let st3 := {| self := self st2; world := w; events := events st2 |} in
        match res2 with
        | inr err =>
            if negb (IsAlreadyExists err) then (Some err, st3) else (None, st3)
        | inl _ => (None, st3)
        end
  end.

Definition Done {World} (env : Env World) (st : state World)
    : (bool * option GoError) * state World :=
  let s := self st in
  let name := (PipelineImageStream env ++ ":" ++ To s)%string in
  let st0 := emit (Logged ("Checking for existence of " ++ name)) st in
  let st1 := emit (CalledGet (JobNamespace s) name) st0 in
  let '(res, w) := getImageStreamTag env (JobNamespace s) name (world st1) in
  let st2 := {| self := s; world := w; events := events st1 |} in
  match res with
  | inr err =>
      if IsNotFound err then ((false, None), st2)
      else ((false, Some err), st2)
  | inl _ => ((true, None), st2)
  end.

(** The calls of [Create] among events. *)
Definition creates (es : list Event) : list (string * ImageStreamTag) :=
  flat_map (fun e => match e with
                     | CalledCreate ns ist => [(ns, ist)]
                     | _ => []
                     end) es.

(** A cluster that keeps what is created in it: after a [Create] that
    succeeds or answers that the object exists, a [Get] of the name of the
    object in that namespace finds an object. *)
Definition keepsCreated {World} (env : Env World) : Prop :=
  forall ns ist w,
    (match fst (createImageStreamTag env ns ist w) with
     | inl _ => True
     | inr err => IsAlreadyExists err = true
     end) ->
    exists found,
      fst (getImageStreamTag env ns (ObjectName ist)
             (snd (createImageStreamTag env ns ist w))) = inl found.

(** A cluster for the examples: the world is the list of the tags created,
    with their namespace, newest first. *)
Definition listCluster : Env (list (string * ImageStreamTag)) :=
  {| getImageStreamTag := fun ns name w =>
       (match List.find (fun e => String.eqb (fst e) ns
                                  && String.eqb (ObjectName (snd e)) name) w with
        | Some e => inl (snd e)
        | None => inr {| IsNotFound := true; IsAlreadyExists := false;
                         ErrorText := "not found" |}
        end, w);
     createImageStreamTag := fun ns ist w =>
       match List.find (fun e => String.eqb (fst e) ns
                                 && String.eqb (ObjectName (snd e))
                                               (ObjectName ist)) w with
       | Some e => (inr {| IsNotFound := false; IsAlreadyExists := true;
                           ErrorText := "already exists" |}, w)
       | None => (inl ist, (ns, ist) :: w)
       end;
     marshalJSON := fun ist => inl (ObjectName ist);
     PipelineImageStream := "pipeline" |}.

(** A step that tags [openshift/origin-v3.10:base] into [pipeline:base],
    before its first call, and a cluster that has the base image. *)
Definition exampleState : state (list (string * ImageStreamTag)) :=
  {| self := {| BaseImage :=
                  {| ImageStreamTagReference.Namespace := "openshift";
                     ImageStreamTagReference.Name := "origin-v3.10";
                     ImageStreamTagReference.Tag := "base" |};
                To := "base";
                JobNamespace := "ci-op";
                imageName := "" |};
     world := [("openshift"%string,
                {| ObjectName := "origin-v3.10:base";
                   ObjectNamespace := "openshift";
                   TagSpec := None;
                   ImageName := "sha256:0a" |})];
     events := [] |}.

End InputImageTag.

(** ** Package [steps]: [createReleaseConfigMap] and [Done] of
    [releaseImagesTagStep] *)

Definition ConfigMapName : string := "release".

(** A [coreapi.ConfigMap]: its name, its namespace and its [Data]. *)
Record ConfigMap := {
  ConfigMapObjectName : string;
  ConfigMapNamespace : string;
  Data : gmap string string
}.

(** What the step is given: the clients of image streams, of routes (a
    route is read for its [Spec.Host] only) and of config maps,
    [json.Marshal] on a config map, and the constant [RPMRepoName] of the
    package, which is declared outside the given sources. *)
Record ReleaseEnv (World : Type) := {
  getImageStream :
    string -> string -> World -> (ImageStream + GoError) * World;
  getRouteHost :
    string -> string -> World -> (string + GoError) * World;
  getConfigMap :
    string -> string -> World -> (ConfigMap + GoError) * World;
  createConfigMap :
    string -> ConfigMap -> World -> (ConfigMap + GoError) * World;
  marshalConfigMap : ConfigMap -> string + GoError;
  RPMRepoName : string
}.
Arguments getImageStream {World}.
Arguments getRouteHost {World}.
Arguments getConfigMap {World}.
Arguments createConfigMap {World}.
Arguments marshalConfigMap {World}.
Arguments RPMRepoName {World}.

Module ReleaseImagesTag.

(** The fields of the step that the two methods read: the namespace of
    the job ([jobSpec.Namespace()]) and [config.Namespace]; with them the
    cluster and what has been seen so far. *)
Record state (World : Type) := {
  JobNamespace : string;
  ConfigNamespace : string;
  world : World;
  events : list Event
}.
Arguments JobNamespace {World}.
Arguments ConfigNamespace {World}.
Arguments world {World}.
Arguments events {World}.

Definition call {World} (e : Event) (w : World) (st : state World)
    : state World :=
  {| JobNamespace := JobNamespace st; ConfigNamespace := ConfigNamespace st;
     world := w; events := events st ++ [e] |}.

(** [errors.IsNotFound(err)] on an error that may be nil. *)
Definition isNotFound (err : option GoError) : bool :=
  match err with Some e => IsNotFound e | None => false end.

(** The end of [createReleaseConfigMap], from [cm := ...] on. *)
Definition writeConfigMap {World} (env : ReleaseEnv World) (dry : bool)
    (imageBase rpmRepo : string) (st : state World)
    : option GoError * state World :=
  let cm := {| ConfigMapObjectName := ConfigMapName;
               ConfigMapNamespace := JobNamespace st;
               Data := <["image-base"%string := imageBase]>
                         (<["rpm-repo"%string := rpmRepo]> ∅) |} in
  if dry then
    match marshalConfigMap env cm with
    | inr err =>
        (Some (Errorf ("failed to marshal configmap: " ++ ErrorText err)), st)
    | inl cmJSON =>
        (None, call (Printed (cmJSON ++ String "010" "")) (world st) st)
    end
  else
    let '(res, w) := createConfigMap env (JobNamespace st) cm (world st) in
    let st1 := call (CalledCreateConfigMap (JobNamespace st) ConfigMapName
                                           (Data cm)) w st in
    match res with
    | inr err =>
        if negb (IsAlreadyExists err) then (Some err, st1) else (None, st1)
    | inl _ => (None, st1)
    end.

Definition createReleaseConfigMap {World} (env : ReleaseEnv World)
    (dry : bool) (st : state World) : option GoError * state World :=
  if negb dry then
    let '(res, w1) := getImageStream env (JobNamespace st) "origin"
                                     (world st) in
    let st1 := call (CalledGetImageStream (JobNamespace st) "origin") w1 st in
    match res with
    | inr err =>
        (Some (Errorf ("could not resolve main release ImageStream: "
                       ++ ErrorText err)), st1)
    | inl originImageStream =>
        if Nat.eqb (String.length
                      (PublicDockerImageRepository originImageStream)) 0
        then (Some (Errorf ("release ImageStream "
                            ++ StreamNamespace originImageStream ++ "/"
                            ++ StreamName originImageStream
                            ++ " is not exposed externally")), st1)
        else
          let imageBase := PublicDockerImageRepository originImageStream in
          let '(res2, w2) := getRouteHost env (JobNamespace st)
                                          (RPMRepoName env) (world st1) in
          let st2 := call (CalledGetRoute (JobNamespace st) (RPMRepoName env))
                          w2 st1 in
          let err := match res2 with inr e => Some e | inl _ => None end in
          if negb (isNotFound err) then (err, st2)
          else
            let '(res3, w3) := getRouteHost env (ConfigNamespace st)
                                            (RPMRepoName env) (world st2) in
            let st3 := call (CalledGetRoute (ConfigNamespace st)
                                            (RPMRepoName env)) w3 st2 in
            match res3 with
            | inr e => (Some e, st3)
            | inl host => writeConfigMap env dry imageBase host st3
            end
    end
  else writeConfigMap env dry "dry-fake" "dry-fake" st.

Definition Done {World} (env : ReleaseEnv World) (st : state World)
    : (bool * option GoError) * state World :=
  let st0 := call (Logged ("Checking for existence of " ++ ConfigMapName
                           ++ " ConfigMap")) (world st) st in
  let '(res, w) := getConfigMap env (JobNamespace st) ConfigMapName
                                (world st0) in
  let st1 := call (CalledGetConfigMap (JobNamespace st) ConfigMapName) w st0 in
  match res with
  | inr err =>
      if IsNotFound err then ((false, None), st1)
      else ((false, Some err), st1)
  | inl _ => ((true, None), st1)
  end.

(** The config maps created among events. *)
Definition configMapsCreated (es : list Event)
    : list (string * string * gmap string string) :=
  flat_map (fun e => match e with
                     | CalledCreateConfigMap ns name data => [(ns, name, data)]
                     | _ => []
                     end) es.

(** The calls of a client among events. *)
Definition clientCalls (es : list Event) : list Event :=
  List.filter (fun e => match e with
                        | Logged _ | Printed _ => false
                        | _ => true
                        end) es.

(** A cluster for the examples, without state: the [origin] stream has a
    public repository and the route of the RPM repository exists in every
    namespace. *)
Definition exampleEnv : ReleaseEnv unit :=
  {| getImageStream := fun ns name w =>
       (inl {| StreamName := name; StreamNamespace := ns; SpecTags := [];
               DockerImageRepository := "";
               PublicDockerImageRepository := "registry/ci/origin";
               StatusTags := [] |}, w);
     getRouteHost := fun ns name w => (inl "rpms.ci"%string, w);
     getConfigMap := fun ns name w =>
       (inr {| IsNotFound := true; IsAlreadyExists := false;
               ErrorText := "not found" |}, w);
     createConfigMap := fun ns cm w => (inl cm, w);
     marshalConfigMap := fun cm => inl (ConfigMapObjectName cm);
     RPMRepoName := "rpm-repo" |}.

Definition exampleState : state unit :=
  {| JobNamespace := "ci-op"; ConfigNamespace := "openshift";
     world := tt; events := [] |}.

(** A cluster that keeps the config maps created in it: after a [Create]
    that succeeds or answers that the config map exists, a [Get] of its
    name in that namespace finds a config map. *)
Definition keepsConfigMaps {World} (env : ReleaseEnv World) : Prop :=
  forall ns cm w,
    (match fst (createConfigMap env ns cm w) with
     | inl _ => True
     | inr err => IsAlreadyExists err = true
     end) ->
    exists found,
      fst (getConfigMap env ns (ConfigMapObjectName cm)
             (snd (createConfigMap env ns cm w))) = inl found.

(** A cluster for the examples whose world is the list of the config maps
    created, with their namespace; the route of the RPM repository exists
    in the namespace [openshift] only. *)
Definition listCluster : ReleaseEnv (list (string * ConfigMap)) :=
  {| getImageStream := fun ns name w =>
       (inl {| StreamName := name; StreamNamespace := ns; SpecTags := [];
               DockerImageRepository := "";
               PublicDockerImageRepository := "registry/ci/origin";
               StatusTags := [] |}, w);
     getRouteHost := fun ns name w =>
       (if String.eqb ns "openshift" then inl "rpms.ci"%string
        else inr {| IsNotFound := true; IsAlreadyExists := false;
                    ErrorText := "not found" |}, w);
     getConfigMap := fun ns name w =>
       (match List.find (fun e => String.eqb (fst e) ns
                                  && String.eqb (ConfigMapObjectName (snd e))
                                                name) w with
        | Some e => inl (snd e)
        | None => inr {| IsNotFound := true; IsAlreadyExists := false;
                         ErrorText := "not found" |}
        end, w);
     createConfigMap := fun ns cm w =>
       match List.find (fun e => String.eqb (fst e) ns
                                 && String.eqb (ConfigMapObjectName (snd e))
                                               (ConfigMapObjectName cm)) w with
       | Some e => (inr {| IsNotFound := false; IsAlreadyExists := true;
                           ErrorText := "already exists" |}, w)
       | None => (inl cm, (ns, cm) :: w)
       end;
     marshalConfigMap := fun cm => inl (ConfigMapObjectName cm);
     RPMRepoName := "rpm-repo" |}.

Definition listState : state (list (string * ConfigMap)) :=
  {| JobNamespace := "ci-op"; ConfigNamespace := "openshift";
     world := []; events := [] |}.

End ReleaseImagesTag.

(** ** Links: the matching relation *)

Lemma Matches_refl l : Matches l l = true.
Proof.
  destruct l as [[ns n t]| s | | |]; simpl; trivial.
  - now rewrite !String.eqb_refl.
  - apply String.eqb_refl.
Qed.

Lemma Matches_sym l1 l2 : Matches l1 l2 = Matches l2 l1.
Proof.
  destruct l1 as [[ns1 n1 t1]| s1 | | |], l2 as [[ns2 n2 t2]| s2 | | |];
    simpl; trivial.
  - now rewrite (String.eqb_sym n1), (String.eqb_sym ns1), (String.eqb_sym t1).
  - apply String.eqb_sym.
Qed.

Lemma Matches_kind l1 l2 : Matches l1 l2 = true -> kind l1 = kind l2.
Proof. destruct l1, l2; simpl; intros H; trivial; discriminate H. Qed.

Lemma Matches_external a b :
  Matches (ExternalImageLink a) (ExternalImageLink b) = true <->
  (ImageStreamTagReference.Namespace a, ImageStreamTagReference.Name a,
   ImageStreamTagReference.Tag a)
  = (ImageStreamTagReference.Namespace b, ImageStreamTagReference.Name b,
     ImageStreamTagReference.Tag b).
Proof.
  simpl. rewrite !andb_true_iff, !String.eqb_eq. split.
  - intros [[-> ->] ->]. reflexivity.
  - intros H. injection H as -> -> ->. auto.
Qed.

Lemma anyMatch_true rs cs :
  anyMatch rs cs = true <->
  exists r c, In r rs /\ In c cs /\ Matches r c = true.
Proof.
  unfold anyMatch. rewrite existsb_exists. split.
  - intros (r & Hr & H). apply existsb_exists in H as (c & Hc & H). eauto.
  - intros (r & c & Hr & Hc & H). exists r. split; trivial.
    apply existsb_exists. eauto.
Qed.

Lemma HasAnyLinks_anyMatch rs cs : HasAnyLinks rs cs = anyMatch rs cs.
Proof.
  apply eq_true_iff_eq. rewrite anyMatch_true. unfold HasAnyLinks.
  rewrite existsb_exists. split.
  - intros (c & Hc & H). apply existsb_exists in H as (r & Hr & H). eauto.
  - intros (r & c & Hr & Hc & H). exists c. split; trivial.
    apply existsb_exists. eauto.
Qed.

(** ** [addToNode] and the inner loops of [BuildGraph] *)

Lemma addToNode_alter parent child h :
  fst (addToNode parent child h) = alter (addChild child) parent h.
Proof.
  unfold addToNode. destruct (h !! parent) as [p|] eqn:Hp.
  - apply list_eq. intros i.
    destruct (decide (parent = i)) as [<-|Hne].
    + rewrite list_lookup_alter_eq, Hp. unfold addChild. simpl.
      destruct (existsb (Nat.eqb child) (Children p)); simpl; trivial.
      apply list_lookup_insert_eq, lookup_lt_is_Some. eauto.
    + rewrite list_lookup_alter_ne by trivial.
      destruct (existsb (Nat.eqb child) (Children p)); simpl; trivial.
      now apply list_lookup_insert_ne.
  - simpl. apply list_eq. intros i.
    destruct (decide (parent = i)) as [<-|Hne].
    + now rewrite list_lookup_alter_eq, Hp.
    + now rewrite list_lookup_alter_ne.
Qed.

Lemma addChild_step child nd : NodeStep (addChild child nd) = NodeStep nd.
Proof. unfold addChild. now destruct (existsb _ _). Qed.

Lemma addChild_idem child nd :
  addChild child (addChild child nd) = addChild child nd.
Proof.
  unfold addChild at 2.
  destruct (existsb (Nat.eqb child) (Children nd)) eqn:E.
  - unfold addChild. now rewrite E.
  - unfold addChild. simpl. rewrite existsb_app. simpl.
    now rewrite Nat.eqb_refl, orb_true_r, E.
Qed.

Lemma alter_addChild_idem child (parent : nat) (h : list StepNode) :
  alter (addChild child) parent (alter (addChild child) parent h)
  = alter (addChild child) parent h.
Proof.
  rewrite list_alter_alter_eq. apply list_alter_ext; trivial.
  intros x _. apply addChild_idem.
Qed.

Lemma requiresOf_alter child (parent : nat) (h : list StepNode) n :
  requiresOf (alter (addChild child) parent h) n = requiresOf h n.
Proof.
  unfold requiresOf. rewrite list_lookup_alter.
  destruct (decide (parent = n)) as [->|]; trivial.
  destruct (h !! n); simpl; trivial. now rewrite addChild_step.
Qed.

Lemma createsOf_alter child (parent : nat) (h : list StepNode) n :
  createsOf (alter (addChild child) parent h) n = createsOf h n.
Proof.
  unfold createsOf. rewrite list_lookup_alter.
  destruct (decide (parent = n)) as [->|]; trivial.
  destruct (h !! n); simpl; trivial. now rewrite addChild_step.
Qed.

Lemma linkStep_fold other node r cs st :
  foldl (linkStep other node r) st cs
  = if existsb (Matches r) cs
    then (alter (addChild node) other (fst st), false)
    else st.
Proof.
  revert st. induction cs as [|c cs IH]; intros st; simpl; trivial.
  rewrite IH. unfold linkStep. rewrite addToNode_alter.
  destruct (Matches r c); simpl; trivial.
  rewrite alter_addChild_idem. now destruct (existsb _ _).
Qed.

Lemma scanOther_eq node other st :
  scanOther node st other
  = if anyMatch (requiresOf (fst st) node) (createsOf (fst st) other)
    then (alter (addChild node) other (fst st), false)
    else st.
Proof.
  unfold scanOther, anyMatch.
  generalize (requiresOf (fst st) node) as rs.
  assert (Hcs : forall rs st0,
    createsOf (fst st0) other = createsOf (fst st) other ->
    foldl (fun st1 r => foldl (linkStep other node r) st1
                              (createsOf (fst st1) other)) st0 rs
    = if existsb (fun r => existsb (Matches r) (createsOf (fst st) other)) rs
      then (alter (addChild node) other (fst st0), false)
      else st0).
  { induction rs as [|r rs IH]; intros st0 H0; simpl; trivial.
    rewrite linkStep_fold, H0.
    destruct (existsb (Matches r) (createsOf (fst st) other)); simpl.
    - rewrite IH by (simpl; now rewrite createsOf_alter).
      simpl. rewrite alter_addChild_idem. now destruct (existsb _ rs).
    - now apply IH. }
  intros rs. now apply Hcs.
Qed.

(** ** [BuildGraph] by index *)

Section BuildGraphLoops.

Variable steps : list Step.

Lemma midInv_requiresOf k i h n :
  midInv steps k i h -> requiresOf h n = requiresAt steps n.
Proof.
  intros [Hlen Hh]. unfold requiresOf, requiresAt.
  destruct (steps !! n) as [s|] eqn:Hs.
  - now rewrite (Hh _ _ Hs).
  - apply lookup_ge_None in Hs. rewrite <- Hlen in Hs.
    apply lookup_ge_None in Hs. now rewrite Hs.
Qed.

Lemma midInv_createsOf k i h n :
  midInv steps k i h -> createsOf h n = createsAt steps n.
Proof.
  intros [Hlen Hh]. unfold createsOf, createsAt.
  destruct (steps !! n) as [s|] eqn:Hs.
  - now rewrite (Hh _ _ Hs).
  - apply lookup_ge_None in Hs. rewrite <- Hlen in Hs.
    apply lookup_ge_None in Hs. now rewrite Hs.
Qed.

Lemma childrenUpTo_fresh k p :
  existsb (Nat.eqb k) (childrenUpTo steps k p) = false.
Proof.
  apply not_true_is_false. intros H.
  apply existsb_exists in H as (x & Hx & Hk).
  apply Nat.eqb_eq in Hk. subst x.
  apply List.filter_In in Hx as [Hx _]. apply List.in_seq in Hx. lia.
Qed.

Lemma childrenUpTo_S k p :
  childrenUpTo steps (S k) p
  = childrenUpTo steps k p ++ (if feeds steps p k then [k] else []).
Proof.
  unfold childrenUpTo. rewrite List.seq_S, List.filter_app. simpl.
  now destruct (feeds steps p k).
Qed.

Lemma midInv_scanOther k i h isRoot :
  midInv steps k i h ->
  exists h', scanOther k (h, isRoot) i = (h', isRoot && negb (feeds steps i k))
             /\ midInv steps k (S i) h'.
Proof.
  intros Hinv. rewrite scanOther_eq. simpl.
  rewrite (midInv_requiresOf _ _ _ _ Hinv), (midInv_createsOf _ _ _ _ Hinv).
  fold (feeds steps i k). destruct Hinv as [Hlen Hh].
  destruct (feeds steps i k) eqn:Hf.
  - eexists. split; [now rewrite andb_false_r|].
    split; [now rewrite length_alter|].
    intros p s Hs. destruct (decide (i = p)) as [<-|Hne].
    + rewrite list_lookup_alter_eq, (Hh _ _ Hs). simpl.
      rewrite Nat.ltb_irrefl, Hf. simpl. rewrite app_nil_r.
      unfold addChild. simpl. rewrite childrenUpTo_fresh.
      replace (i <? S i)%nat with true by (symmetry; apply Nat.ltb_lt; lia).
      reflexivity.
    + rewrite list_lookup_alter_ne, (Hh _ _ Hs) by trivial.
      replace (p <? S i)%nat with (p <? i)%nat; trivial.
      apply eq_true_iff_eq. rewrite !Nat.ltb_lt. lia.
  - exists h. split; [now rewrite andb_true_r|].
    split; trivial. intros p s Hs. rewrite (Hh _ _ Hs).
    destruct (decide (i = p)) as [<-|Hne].
    + now rewrite Hf, !andb_false_r.
    + replace (p <? S i)%nat with (p <? i)%nat; trivial.
      apply eq_true_iff_eq. rewrite !Nat.ltb_lt. lia.
Qed.

Lemma midInv_scanOthers k len : forall i h isRoot,
  midInv steps k i h ->
  exists h',
    foldl (scanOther k) (h, isRoot) (seq i len)
    = (h', isRoot && forallb (fun other => negb (feeds steps other k)) (seq i len))
    /\ midInv steps k (i + len) h'.
Proof.
  induction len as [|len IH]; intros i h isRoot Hinv; simpl.
  - exists h. rewrite andb_true_r, Nat.add_0_r. auto.
  - destruct (midInv_scanOther _ _ _ isRoot Hinv) as (h1 & -> & H1).
    destruct (IH _ _ (isRoot && negb (feeds steps i k)) H1) as (h2 & -> & H2).
    exists h2. rewrite andb_assoc, Nat.add_succ_r. auto.
Qed.

Lemma midInv_next k h :
  midInv steps k (length steps) h -> midInv steps (S k) 0 h.
Proof.
  intros [Hlen Hh]. split; trivial. intros p s Hs.
  rewrite (Hh _ _ Hs), childrenUpTo_S. simpl. rewrite app_nil_r.
  apply lookup_lt_Some in Hs.
  replace (p <? length steps)%nat with true by (symmetry; apply Nat.ltb_lt; lia).
  reflexivity.
Qed.

Lemma midInv_scanNode k h :
  midInv steps k 0 h ->
  exists h', scanNode (seq 0 (length steps)) h k = (h', isRootAt steps k)
             /\ midInv steps (S k) 0 h'.
Proof.
  intros Hinv. unfold scanNode.
  destruct (midInv_scanOthers k (length steps) 0 h true Hinv) as (h' & -> & H').
  exists h'. split; trivial. now apply midInv_next.
Qed.

Lemma midInv_nodes len : forall k h roots,
  midInv steps k 0 h ->
  exists h',
    foldl (fun '(h, roots) node =>
             let '(h', isRoot) := scanNode (seq 0 (length steps)) h node in
             (h', if isRoot then roots ++ [node] else roots))
          (h, roots) (seq k len)
    = (h', roots ++ List.filter (isRootAt steps) (seq k len))
    /\ midInv steps (k + len) 0 h'.
Proof.
  induction len as [|len IH]; intros k h roots Hinv; simpl.
  - exists h. rewrite app_nil_r, Nat.add_0_r. auto.
  - destruct (midInv_scanNode _ _ Hinv) as (h1 & -> & H1).
    destruct (IH (S k) h1 (if isRootAt steps k then roots ++ [k] else roots) H1)
      as (h2 & -> & H2).
    exists h2. rewrite Nat.add_succ_r. split; trivial. f_equal.
    destruct (isRootAt steps k); trivial. now rewrite <- app_assoc.
Qed.

Lemma midInv_alloc : midInv steps 0 0 (allocNodes steps).
Proof.
  split; [apply List.length_map|]. intros p s Hs. unfold allocNodes.
  change (map ?f steps) with (f <$> steps).
  now rewrite list_lookup_fmap, Hs.
Qed.

Lemma midInv_done h :
  midInv steps (length steps) 0 h -> h = Nodes (graphOf steps).
Proof.
  intros [Hlen Hh]. apply list_eq. intros p. simpl.
  rewrite list_lookup_imap. destruct (steps !! p) as [s|] eqn:Hs; simpl.
  - rewrite (Hh _ _ Hs). simpl. now rewrite app_nil_r.
  - apply lookup_ge_None. rewrite Hlen. now apply lookup_ge_None.
Qed.

(** [BuildGraph] returns the store and the roots that [graphOf] describes:
    node [p] has the nodes [j] with [feeds steps p j] as its children, in
    the order of the steps, and the roots are the nodes that nothing
    feeds. *)
Lemma BuildGraph_graphOf : BuildGraph steps = graphOf steps.
Proof.
  unfold BuildGraph.
  destruct (midInv_nodes (length steps) 0 _ [] midInv_alloc) as (h & -> & Hh).
  simpl in *. now rewrite (midInv_done _ Hh).
Qed.

End BuildGraphLoops.

(** ** Edges and roots of the graph that [BuildGraph] returns *)

Lemma BuildGraph_lookup steps p s :
  steps !! p = Some s ->
  Nodes (BuildGraph steps) !! p
  = Some {| NodeStep := s;
            Children := childrenUpTo steps (length steps) p |}.
Proof.
  intros Hs. rewrite BuildGraph_graphOf. simpl.
  now rewrite list_lookup_imap, Hs.
Qed.

Lemma BuildGraph_child steps p c :
  child (BuildGraph steps) p c <->
  p < length steps /\ c < length steps /\ feeds steps p c = true.
Proof.
  unfold child. split.
  - intros (nd & Hnd & Hc). rewrite BuildGraph_graphOf in Hnd. simpl in Hnd.
    rewrite list_lookup_imap in Hnd.
    destruct (steps !! p) as [s|] eqn:Hs; [|discriminate].
    injection Hnd as <-. simpl in Hc.
    apply List.filter_In in Hc as [Hc Hf]. apply List.in_seq in Hc.
    apply lookup_lt_Some in Hs. repeat split; trivial; lia.
  - intros (Hp & Hc & Hf).
    destruct (lookup_lt_is_Some_2 steps p Hp) as [s Hs].
    eexists. split; [apply (BuildGraph_lookup _ _ _ Hs)|]. simpl.
    apply List.filter_In. split; trivial. apply List.in_seq. lia.
Qed.

Lemma BuildGraph_root steps r :
  In r (Roots (BuildGraph steps)) <->
  r < length steps /\ isRootAt steps r = true.
Proof.
  rewrite BuildGraph_graphOf. simpl. rewrite List.filter_In, List.in_seq.
  intuition lia.
Qed.


Lemma inForest_no_roots g n : Roots g = [] -> ~ inForest g n.
Proof.
  intros Hr H. induction H as [r Hin|p c _ IH _]; trivial.
  rewrite Hr in Hin. destruct Hin.
Qed.

(** ** Properties of [Matches] and [BuildGraph] *)

(** C7: on the five kinds of links, [Matches] is false across kinds,
    every link matches itself, two external links match exactly when their
    (namespace, name, tag) triples are equal, and [Matches] is symmetric. *)
Theorem Matches_kinds_refl_sym (l1 l2 : StepLink) :
  (kind l1 <> kind l2 -> Matches l1 l2 = false) /\
  Matches l1 l1 = true /\
  (forall a b,
     Matches (ExternalImageLink a) (ExternalImageLink b) = true <->
     (ImageStreamTagReference.Namespace a, ImageStreamTagReference.Name a,
      ImageStreamTagReference.Tag a)
     = (ImageStreamTagReference.Namespace b, ImageStreamTagReference.Name b,
        ImageStreamTagReference.Tag b)) /\
  (Matches l1 l2 = true <-> Matches l2 l1 = true).
Proof.
  split; [|split; [|split]].
  - intros Hk. apply not_true_is_false. intros H. now apply Hk, Matches_kind.
  - apply Matches_refl.
  - apply Matches_external.
  - now rewrite Matches_sym.
Qed.

Lemma Matches_kinds_refl_sym_witness :
  Matches (InternalImageLink "src") RPMRepoLink = false /\
  Matches (InternalImageLink "src") (InternalImageLink "src") = true.
Proof.
  destruct (Matches_kinds_refl_sym (InternalImageLink "src") RPMRepoLink)
    as (Hcross & Hrefl & _).
  split; [apply Hcross; simpl; discriminate | exact Hrefl].
Defined.

(** On an input that can be ranked so that a step that creates a link
    matching a link another step requires always has the smaller rank,
    every node is in the forest that [BuildGraph] returns. *)
Lemma BuildGraph_acyclic_inForest (steps : list Step) (rank : nat -> nat) :
  (forall p n, p < length steps -> n < length steps ->
     feeds steps p n = true -> rank p < rank n) ->
  forall n, n < length steps -> inForest (BuildGraph steps) n.
Proof.
  intros Hrank.
  assert (Hall : forall k n, rank n < k -> n < length steps ->
                             inForest (BuildGraph steps) n).
  { induction k as [|k IH]; intros n Hk Hn; [lia|].
    destruct (isRootAt steps n) eqn:Hroot.
    - apply inForest_root. apply BuildGraph_root. auto.
    - unfold isRootAt in Hroot.
      assert (Hex : exists p, In p (seq 0 (length steps)) /\
                              feeds steps p n = true).
      { clear -Hroot. induction (seq 0 (length steps)) as [|p l IHl];
          simpl in Hroot; [discriminate|].
        destruct (feeds steps p n) eqn:Hf.
        - exists p. split; [now left|trivial].
        - simpl in Hroot. destruct (IHl Hroot) as (q & Hq & Hfq).
          exists q. split; [now right|trivial]. }
      destruct Hex as (p & Hp & Hf). apply List.in_seq in Hp.
      apply inForest_child with p.
      + assert (Hlt : rank p < rank n) by (apply Hrank; trivial; lia).
        apply IH; lia.
      + apply BuildGraph_child. repeat split; trivial; lia. }
  intros n Hn. apply (Hall (S (rank n))); trivial. lia.
Qed.




(** C3, at the input that shows the defect: [BuildGraph] also checks a node
    against itself, where the comment on it says that the graphs it returns
    include all steps given.  A single step that requires the link it
    creates is made a child of its own node, is not a root, and nothing is
    returned: no root, an empty forest. *)
Theorem BuildGraph_self_match :
  let step := {| Name := "release"; Requires := [ReleaseImagesLink];
                 Creates := [ReleaseImagesLink] |} in
  BuildGraph [step]
  = {| Nodes := [{| NodeStep := step; Children := [0] |}]; Roots := [] |}
  /\ child (BuildGraph [step]) 0 0
  /\ ~ In 0 (Roots (BuildGraph [step]))
  /\ forest (BuildGraph [step]) = [].
Proof.
  simpl. repeat split; [|auto]. exists {|
    NodeStep := {| Name := "release"; Requires := [ReleaseImagesLink];
                   Creates := [ReleaseImagesLink] |};
    Children := [0] |}.
  simpl. auto.
Qed.

(** C9: [BuildGraph] does not return every step.  When each of two steps
    requires a link that the other creates, the list of roots is empty,
    the forest is empty and no node is in it. *)
Theorem BuildGraph_cycle_dropped (a b : Step) :
  anyMatch (Requires a) (Creates b) = true ->
  anyMatch (Requires b) (Creates a) = true ->
  let g := BuildGraph [a; b] in
  length (Nodes g) = 2 /\ Roots g = [] /\ forest g = [] /\
  forall n, ~ inForest g n.
Proof.
  intros Hab Hba g.
  assert (Hroots : Roots g = []).
  { unfold g. rewrite BuildGraph_graphOf.
    unfold graphOf, isRootAt, feeds, requiresAt, createsAt. simpl.
    rewrite Hab, Hba. simpl. now rewrite !andb_false_r. }
  repeat split; trivial.
  - unfold g. rewrite BuildGraph_graphOf. reflexivity.
  - unfold forest. now rewrite Hroots.
  - intros n. now apply inForest_no_roots.
Qed.

Lemma BuildGraph_cycle_dropped_witness :
  Roots (BuildGraph [ {| Name := "a"; Requires := [InternalImageLink "b"];
                         Creates := [InternalImageLink "a"] |};
                      {| Name := "b"; Requires := [InternalImageLink "a"];
                         Creates := [InternalImageLink "b"] |} ]) = [].
Proof.
  apply (BuildGraph_cycle_dropped
           {| Name := "a"; Requires := [InternalImageLink "b"];
              Creates := [InternalImageLink "a"] |}
           {| Name := "b"; Requires := [InternalImageLink "a"];
              Creates := [InternalImageLink "b"] |});
    reflexivity.
Defined.

(** ** The name scan of [BuildPartialGraph] *)

Lemma findName_consume nm ns :
  match findName nm ns with Some j => delete j ns | None => ns end
  = consume nm ns.
Proof.
  induction ns as [|n ns IH]; simpl; trivial.
  destruct (String.eqb n nm); simpl; trivial.
  destruct (findName nm ns); simpl in *; now rewrite <- IH.
Qed.

Lemma findName_length nm ns j :
  findName nm ns = Some j -> S (length (delete j ns)) = length ns.
Proof.
  revert j. induction ns as [|n ns IH]; intros j; simpl; [discriminate|].
  destruct (String.eqb n nm); simpl.
  - now intros [= <-].
  - destruct (findName nm ns) as [j'|]; simpl; [|discriminate].
    intros [= <-]. simpl. now rewrite (IH j').
Qed.

Lemma findName_nil nm : findName nm [] = None.
Proof. reflexivity. Qed.

Lemma seedStep_names i s st :
  names (seedStep i s st) = consume (Name s) (names st).
Proof.
  unfold seedStep. rewrite <- findName_consume.
  now destruct (findName (Name s) (names st)).
Qed.

Lemma seed_loop_names l : forall i st,
  names (forRange seedStep i l st)
  = fold_left (fun ns s => consume (Name s) ns) l (names st).
Proof.
  induction l as [|s l IH]; intros i st; simpl; trivial.
  now rewrite IH, seedStep_names.
Qed.

Lemma count_occ_consume nm ns x :
  count_occ string_dec (consume nm ns) x
  = if String.eqb nm x then pred (count_occ string_dec ns x)
    else count_occ string_dec ns x.
Proof.
  induction ns as [|n ns IH]; simpl.
  - now destruct (String.eqb nm x).
  - destruct (String.eqb n nm) eqn:En.
    + apply String.eqb_eq in En. subst n.
      destruct (string_dec nm x) as [->|Hne].
      * now rewrite String.eqb_refl.
      * apply String.eqb_neq in Hne. now rewrite Hne.
    + simpl. rewrite IH. destruct (String.eqb nm x) eqn:Ex.
      * apply String.eqb_eq in Ex. subst x. apply String.eqb_neq in En.
        now destruct (string_dec n nm).
      * reflexivity.
Qed.

Lemma count_occ_leftover x steps : forall ns,
  count_occ string_dec (fold_left (fun ns s => consume (Name s) ns) steps ns) x
  = count_occ string_dec ns x - stepsNamed x steps.
Proof.
  unfold stepsNamed.
  induction steps as [|s steps IH]; intros ns; simpl; [lia|].
  rewrite IH, count_occ_consume.
  destruct (String.eqb (Name s) x); simpl; lia.
Qed.

Lemma seed_names_count steps names0 x :
  count_occ string_dec (names (seed steps names0)) x
  = count_occ string_dec names0 x - stepsNamed x steps.
Proof. unfold seed. rewrite seed_loop_names. apply count_occ_leftover. Qed.

Lemma seed_names_nil steps : names (seed steps []) = [].
Proof.
  unfold seed. rewrite seed_loop_names. simpl.
  induction steps as [|s steps IH]; simpl; trivial.
Qed.

(** ** Set flags *)

Lemma marked_le cands : marked cands <= length cands.
Proof. apply List.filter_length_le. Qed.

Lemma marked_insert cands : forall i,
  cands !! i = Some false -> marked (<[i := true]> cands) = S (marked cands).
Proof.
  unfold marked.
  induction cands as [|c cands IH]; intros [|i] H; simpl in *; try discriminate.
  - now injection H as ->.
  - destruct c; simpl; now rewrite (IH _ H).
Qed.

Lemma marked_replicate n : marked (replicate n false) = 0.
Proof. unfold marked. induction n; simpl; trivial. Qed.

Lemma seed_loop_marked l : forall i st,
  length (candidates st) = i + length l ->
  (forall p, i <= p -> candidates st !! p <> Some true) ->
  let st' := forRange seedStep i l st in
  length (candidates st') = i + length l /\
  marked (candidates st') + length (names st')
  = marked (candidates st) + length (names st).
Proof.
  induction l as [|s l IH]; intros i st Hlen Hfresh; simpl; [auto|].
  assert (Hi : candidates st !! i = Some false).
  { destruct (lookup_lt_is_Some_2 (candidates st) i) as [[|] Hc];
      [simpl in Hlen; lia| |trivial].
    now destruct (Hfresh i (le_n i)). }
  destruct (IH (S i) (seedStep i s st)) as [Hlen' Hsum].
  - unfold seedStep. destruct (findName _ _); simpl;
      rewrite ?length_insert; simpl in Hlen; lia.
  - intros p Hp. unfold seedStep. destruct (findName _ _); simpl.
    + rewrite list_lookup_insert_ne by lia. apply Hfresh. lia.
    + apply Hfresh. lia.
  - split; [simpl in *; lia|]. rewrite Hsum. unfold seedStep.
    destruct (findName (Name s) (names st)) as [j|] eqn:Hj; simpl; trivial.
    rewrite (marked_insert _ _ Hi). apply findName_length in Hj. lia.
Qed.

Lemma seed_marked steps names0 :
  length (candidates (seed steps names0)) = length steps /\
  marked (candidates (seed steps names0)) + length (names (seed steps names0))
  = length names0.
Proof.
  unfold seed.
  destruct (seed_loop_marked steps 0
              {| candidates := replicate (length steps) false;
                 required := []; names := names0 |}) as [Hlen Hsum].
  - simpl. now rewrite length_replicate.
  - intros p _. simpl. intros H. apply lookup_replicate in H as [H _].
    discriminate H.
  - simpl in *. rewrite marked_replicate in Hsum. auto.
Qed.

(** ** The closure loop of [BuildPartialGraph] *)

Lemma closePass_loop l : forall i sel added,
  length (candidates sel) = i + length l ->
  let r := forRange closeStep i l (sel, added) in
  length (candidates (fst r)) = i + length l /\
  marked (candidates (fst r)) + added = marked (candidates sel) + snd r /\
  names (fst r) = names sel.
Proof.
  induction l as [|s l IH]; intros i sel added Hlen; simpl; [auto|].
  simpl in Hlen.
  destruct (lookup_lt_is_Some_2 (candidates sel) i) as [c Hc]; [lia|].
  rewrite Hc. simpl.
  destruct c; simpl.
  - destruct (IH (S i) sel added) as (H1 & H2 & H3); [lia|].
    repeat split; trivial; lia.
  - destruct (HasAnyLinks (required sel) (Creates s)).
    + match goal with |- context [forRange closeStep (S i) l (?x, ?y)] =>
        destruct (IH (S i) x y) as (H1 & H2 & H3) end.
      { simpl. rewrite length_insert. lia. }
      simpl in *. rewrite (marked_insert _ _ Hc) in H2.
      repeat split; trivial; lia.
    + destruct (IH (S i) sel added) as (H1 & H2 & H3); [lia|].
      repeat split; trivial; lia.
Qed.

Lemma closePass_marked steps sel :
  length (candidates sel) = length steps ->
  length (candidates (fst (closePass steps sel))) = length steps /\
  marked (candidates (fst (closePass steps sel)))
  = marked (candidates sel) + snd (closePass steps sel).
Proof.
  intros Hlen. unfold closePass.
  destruct (closePass_loop steps 0 sel 0 Hlen) as (H1 & H2 & _).
  simpl in *. split; trivial. lia.
Qed.

Lemma closeLoop_enough steps : forall fuel sel,
  length (candidates sel) = length steps ->
  length steps - marked (candidates sel) < fuel ->
  exists sel', closeLoop fuel steps sel = Some sel'.
Proof.
  induction fuel as [|fuel IH]; intros sel Hlen Hfuel; [lia|].
  simpl. destruct (closePass_marked steps sel Hlen) as [Hlen' Hm].
  destruct (closePass steps sel) as [sel1 added]. simpl in *.
  destruct (Nat.eqb added 0) eqn:Ha; [eauto|].
  apply Nat.eqb_neq in Ha. apply IH; trivial.
  pose proof (marked_le (candidates sel1)). lia.
Qed.

Lemma closeLoop_more steps : forall fuel fuel' sel sel',
  closeLoop fuel steps sel = Some sel' -> fuel <= fuel' ->
  closeLoop fuel' steps sel = Some sel'.
Proof.
  induction fuel as [|fuel IH]; intros [|fuel'] sel sel' H Hle;
    simpl in *; try discriminate; try lia.
  destruct (closePass steps sel) as [sel1 added].
  destruct (Nat.eqb added 0); trivial. apply (IH fuel'); trivial. lia.
Qed.

Lemma closeLoop_seeded steps names0 :
  names0 <> [] -> names (seed steps names0) = [] ->
  exists sel', closeLoop (length steps) steps (seed steps names0) = Some sel'.
Proof.
  intros Hne Hleft. destruct (seed_marked steps names0) as [Hlen Hsum].
  apply closeLoop_enough; trivial. rewrite Hleft in Hsum. simpl in Hsum.
  pose proof (marked_le (candidates (seed steps names0))).
  destruct names0; [congruence|]. simpl in Hsum. lia.
Qed.

Lemma BuildPartialGraph_total steps names0 :
  exists r, BuildPartialGraph steps names0 = Some r.
Proof.
  unfold BuildPartialGraph, BuildPartialGraphFuel.
  destruct (Nat.eqb (length names0) 0) eqn:E0; [eauto|].
  destruct (Nat.ltb 0 (length (names (seed steps names0)))) eqn:El; [eauto|].
  destruct (closeLoop_seeded steps names0) as [sel' ->]; [| |eauto].
  - intros ->. discriminate E0.
  - apply Nat.ltb_ge in El. destruct (names (seed steps names0)); trivial.
    simpl in El. lia.
Qed.

Lemma BuildPartialGraphFuel_stable steps names0 fuel :
  length steps <= fuel ->
  BuildPartialGraphFuel fuel steps names0 = BuildPartialGraph steps names0.
Proof.
  intros Hfuel. unfold BuildPartialGraph, BuildPartialGraphFuel.
  destruct (Nat.eqb (length names0) 0) eqn:E0; trivial.
  destruct (Nat.ltb 0 (length (names (seed steps names0)))) eqn:El; trivial.
  destruct (closeLoop_seeded steps names0) as [sel' Hsel'].
  - intros ->. discriminate E0.
  - apply Nat.ltb_ge in El. destruct (names (seed steps names0)); trivial.
    simpl in El. lia.
  - now rewrite Hsel', (closeLoop_more _ _ _ _ _ Hsel' Hfuel).
Qed.

Lemma BuildPartialGraph_leftover steps names0 :
  names (seed steps names0) <> [] ->
  BuildPartialGraph steps names0
  = Some (inr (notFoundError (names (seed steps names0)))).
Proof.
  intros Hne. unfold BuildPartialGraph, BuildPartialGraphFuel.
  destruct names0 as [|n names0].
  - exfalso. apply Hne. apply seed_names_nil.
  - simpl. destruct (names (seed steps (n :: names0))); [congruence|reflexivity].
Qed.

Lemma BuildPartialGraph_no_leftover steps names0 :
  names (seed steps names0) = [] ->
  exists g, BuildPartialGraph steps names0 = Some (inl g).
Proof.
  intros Hnil. destruct (BuildPartialGraph_total steps names0) as [r Hr].
  revert Hr. unfold BuildPartialGraph, BuildPartialGraphFuel.
  destruct (Nat.eqb (length names0) 0); [eauto|].
  rewrite Hnil. simpl.
  destruct (closeLoop _ _ _); [eauto|discriminate].
Qed.

(** ** A single requested name *)

Lemma seed_loop_done l : forall i st,
  names st = [] -> forRange seedStep i l st = st.
Proof.
  induction l as [|s l IH]; intros i st Hn; simpl; trivial.
  unfold seedStep at 2. rewrite Hn. simpl. now apply IH.
Qed.

Lemma seed_loop_single name l : forall i0 st k s,
  names st = [name] ->
  l !! k = Some s -> Name s = name ->
  (forall j s', j < k -> l !! j = Some s' -> Name s' <> name) ->
  forRange seedStep i0 l st
  = {| candidates := <[i0 + k := true]> (candidates st);
       required := required st ++ Requires s;
       names := [] |}.
Proof.
  induction l as [|s0 l IH]; intros i0 st k s Hn Hk Hs Hfirst;
    [discriminate|].
  destruct k as [|k]; simpl in *.
  - injection Hk as ->. unfold seedStep. rewrite Hn, Hs. simpl.
    rewrite String.eqb_refl. simpl. rewrite seed_loop_done by trivial.
    now rewrite Nat.add_0_r.
  - assert (H0 : Name s0 <> name) by (apply (Hfirst 0); [lia|trivial]).
    unfold seedStep at 2. rewrite Hn. simpl.
    replace (String.eqb name (Name s0)) with false
      by (symmetry; apply String.eqb_neq; congruence).
    simpl. rewrite (IH (S i0) st k s); trivial.
    + now rewrite Nat.add_succ_r.
    + intros j s' Hj. apply (Hfirst (S j)). lia.
Qed.

(** ** Properties of [BuildPartialGraph] *)

(** C4: with no names, [BuildPartialGraph] returns the graph of
    [BuildGraph] on the same steps and no error, whatever the fuel of the
    closure loop, which is not reached. *)
Theorem BuildPartialGraph_no_names (steps : list Step) :
  BuildPartialGraph steps [] = Some (inl (BuildGraph steps)) /\
  forall fuel,
    BuildPartialGraphFuel fuel steps [] = Some (inl (BuildGraph steps)).
Proof. split; reflexivity. Qed.

(** C5: [BuildPartialGraph] returns an error, and then no graph, exactly
    when some requested name is left over by the scan of the steps.  The
    error is the fixed text followed by all the names left over, in their
    order, joined with a comma and a space.  A name is left over as many
    times as it is requested beyond the number of steps that have it: a
    name of no step always, a repeated name when too few steps have it. *)
Theorem BuildPartialGraph_error_iff (steps : list Step) (names0 : list string) :
  let leftover := names (seed steps names0) in
  (forall x, count_occ string_dec leftover x
             = count_occ string_dec names0 x - stepsNamed x steps) /\
  (forall msg,
     BuildPartialGraph steps names0 = Some (inr msg) <->
     leftover <> [] /\
     msg = ("the following names were not found in the config or were duplicates: "
            ++ String.concat ", " leftover)%string) /\
  ((exists g, BuildPartialGraph steps names0 = Some (inl g)) <->
   leftover = []).
Proof.
  intros leftover.
  pose proof (BuildPartialGraph_leftover steps names0) as Herr.
  pose proof (BuildPartialGraph_no_leftover steps names0) as Hok.
  fold leftover in Herr, Hok.
  split; [|split].
  - intros x. apply seed_names_count.
  - intros msg. split.
    + intros H. destruct leftover as [|n l] eqn:E.
      * destruct Hok as [g Hg]; trivial. congruence.
      * rewrite Herr in H by discriminate. injection H as <-.
        split; [discriminate|reflexivity].
    + intros [Hne ->]. now apply Herr.
  - split; trivial. intros [g Hg]. destruct leftover as [|n l] eqn:E; trivial.
    rewrite Herr in Hg by discriminate. discriminate Hg.
Qed.

Lemma BuildPartialGraph_error_iff_witness :
  BuildPartialGraph [releaseImagesTagStep] ["unit"; "e2e"]
  = Some (inr "the following names were not found in the config or were duplicates: unit, e2e").
Proof.
  apply (BuildPartialGraph_error_iff [releaseImagesTagStep] ["unit"; "e2e"]).
  split; [discriminate | reflexivity].
Defined.

(** C6, refuted: a name that two steps have is accepted.  With two steps
    named [unit] and the one name [unit] requested there is no error, and
    the graph has the first of the two steps only. *)
Lemma BuildPartialGraph_ambiguous_name_accepted :
  let first := {| Name := "unit"; Requires := [];
                  Creates := [InternalImageLink "a"] |} in
  let second := {| Name := "unit"; Requires := [];
                   Creates := [InternalImageLink "b"] |} in
  stepsNamed "unit" [first; second] = 2 /\
  BuildPartialGraph [first; second] ["unit"]
  = Some (inl {| Nodes := [{| NodeStep := first; Children := [] |}];
                 Roots := [0] |}) /\
  ~ (exists msg, BuildPartialGraph [first; second] ["unit"] = Some (inr msg)).
Proof.
  simpl. repeat split. intros [msg H]. discriminate H.
Qed.

(** C6, amended: a requested name that several steps have is no error.
    When one name is requested, the first step that has it (in the order of
    the steps) is the only seed of the selection, whatever the names of
    the steps after it, and a graph is returned. *)
Theorem BuildPartialGraph_first_named_step (steps : list Step)
    (name : string) (i : nat) (s : Step) :
  steps !! i = Some s -> Name s = name ->
  (forall j s', j < i -> steps !! j = Some s' -> Name s' <> name) ->
  let sel := seed steps [name] in
  candidates sel = <[i := true]> (replicate (length steps) false) /\
  required sel = Requires s /\
  names sel = [] /\
  exists g, BuildPartialGraph steps [name] = Some (inl g).
Proof.
  intros Hi Hs Hfirst sel.
  assert (Hsel : sel = {| candidates := <[i := true]> (replicate (length steps) false);
                          required := Requires s; names := [] |}).
  { unfold sel, seed. now rewrite (seed_loop_single name steps 0 _ i s). }
  rewrite Hsel. simpl. repeat split.
  apply BuildPartialGraph_no_leftover. fold sel. now rewrite Hsel.
Qed.

Lemma BuildPartialGraph_first_named_step_witness :
  candidates (seed [ {| Name := "unit"; Requires := [];
                        Creates := [InternalImageLink "a"] |};
                     {| Name := "unit"; Requires := [];
                        Creates := [InternalImageLink "b"] |} ] ["unit"])
  = [true; false].
Proof.
  refine (proj1 (BuildPartialGraph_first_named_step
                   [ {| Name := "unit"; Requires := [];
                        Creates := [InternalImageLink "a"] |};
                     {| Name := "unit"; Requires := [];
                        Creates := [InternalImageLink "b"] |} ] "unit" 0
                   {| Name := "unit"; Requires := [];
                      Creates := [InternalImageLink "a"] |}
                   eq_refl eq_refl _)).
  intros j s' Hj. lia.
Defined.

(** C8, at the input that refutes it: the name scan compares the requested
    name with [Name()] and nothing else, so the empty name selects a step
    whose [Name()] is empty.  With one [inputImageTagStep] and the names
    [[""]], the step is the seed, no name is left over and the graph of
    that step is returned. *)
Theorem BuildPartialGraph_empty_name_targeted :
  let step := inputImageTagStep
                {| ImageStreamTagReference.Namespace := "openshift";
                   ImageStreamTagReference.Name := "origin-v3.10";
                   ImageStreamTagReference.Tag := "base" |} "base" in
  Name step = "" /\
  candidates (seed [step] [""]) = [true] /\
  names (seed [step] [""]) = [] /\
  BuildPartialGraph [step] [""]
  = Some (inl {| Nodes := [{| NodeStep := step; Children := [] |}];
                 Roots := [0] |}).
Proof. simpl. repeat split. Qed.

(** C10: the closure loop ends.  A pass (one scan of the steps) sets as many
    new flags as it counts in [added], so it either sets a flag that was
    not set or counts none, and the loop ends when it counts none; when the loop is reached (names were
    requested and none is left over), as many passes as there are steps,
    the fuel of [closeLoop], are enough, and more fuel gives the same
    selection. *)
Theorem closeLoop_terminates (steps : list Step) (names0 : list string) :
  names0 <> [] -> names (seed steps names0) = [] ->
  (forall sel, length (candidates sel) = length steps ->
     length (candidates (fst (closePass steps sel))) = length steps /\
     marked (candidates (fst (closePass steps sel)))
     = marked (candidates sel) + snd (closePass steps sel)) /\
  (forall sel fuel, snd (closePass steps sel) = 0 ->
     closeLoop (S fuel) steps sel = Some (fst (closePass steps sel))) /\
  exists sel',
    closeLoop (length steps) steps (seed steps names0) = Some sel' /\
    forall fuel, length steps <= fuel ->
      closeLoop fuel steps (seed steps names0) = Some sel'.
Proof.
  intros Hne Hleft. split; [|split].
  - intros sel. apply closePass_marked.
  - intros sel fuel H0. simpl. destruct (closePass steps sel) as [sel1 added].
    simpl in *. now rewrite H0.
  - destruct (closeLoop_seeded steps names0 Hne Hleft) as [sel' Hsel'].
    exists sel'. split; trivial. intros fuel Hfuel.
    now apply closeLoop_more with (length steps).
Qed.

Lemma closeLoop_terminates_witness :
  exists sel',
    closeLoop 2 [ {| Name := "root"; Requires := [];
                     Creates := [InternalImageLink "root"] |};
                  {| Name := "src"; Requires := [InternalImageLink "root"];
                     Creates := [InternalImageLink "src"] |} ]
              (seed [ {| Name := "root"; Requires := [];
                         Creates := [InternalImageLink "root"] |};
                      {| Name := "src"; Requires := [InternalImageLink "root"];
                         Creates := [InternalImageLink "src"] |} ] ["src"])
    = Some sel'.
Proof.
  destruct (closeLoop_terminates
              [ {| Name := "root"; Requires := [];
                   Creates := [InternalImageLink "root"] |};
                {| Name := "src"; Requires := [InternalImageLink "root"];
                   Creates := [InternalImageLink "src"] |} ] ["src"])
    as (_ & _ & sel' & Hsel' & _).
  - discriminate.
  - reflexivity.
  - exists sel'. exact Hsel'.
Defined.

(** C2: the scenario of three steps.  [X] creates [L1]; [Y] and [Z] require
    [L1] and create [L2] and [L3]; the three links do not match one
    another.  [BuildGraph] returns the one root [X] with the children [Y]
    and [Z], both leaves; and for the name [Z] the selection of
    [BuildPartialGraph] is [X] and [Z], and the graph is the root [X] with
    the one child [Z]. *)
Theorem BuildGraph_scenario (L1 L2 L3 : StepLink) :
  Matches L1 L2 = false -> Matches L1 L3 = false -> Matches L2 L3 = false ->
  let X := {| Name := "X"; Requires := []; Creates := [L1] |} in
  let Y := {| Name := "Y"; Requires := [L1]; Creates := [L2] |} in
  let Z := {| Name := "Z"; Requires := [L1]; Creates := [L3] |} in
  BuildGraph [X; Y; Z]
  = {| Nodes := [ {| NodeStep := X; Children := [1; 2] |};
                  {| NodeStep := Y; Children := [] |};
                  {| NodeStep := Z; Children := [] |} ];
       Roots := [0] |} /\
  forest (BuildGraph [X; Y; Z])
  = [TreeNode X [TreeNode Y []; TreeNode Z []]] /\
  option_map candidates (closeLoop 3 [X; Y; Z] (seed [X; Y; Z] ["Z"]))
  = Some [true; false; true] /\
  targetedSteps [X; Y; Z] [true; false; true] = [X; Z] /\
  BuildPartialGraph [X; Y; Z] ["Z"]
  = Some (inl {| Nodes := [ {| NodeStep := X; Children := [1] |};
                            {| NodeStep := Z; Children := [] |} ];
                 Roots := [0] |}) /\
  forest {| Nodes := [ {| NodeStep := X; Children := [1] |};
                       {| NodeStep := Z; Children := [] |} ];
            Roots := [0] |}
  = [TreeNode X [TreeNode Z []]].
Proof.
  intros H12 H13 H23 X Y Z.
  assert (Hfull : BuildGraph [X; Y; Z]
    = {| Nodes := [ {| NodeStep := X; Children := [1; 2] |};
                    {| NodeStep := Y; Children := [] |};
                    {| NodeStep := Z; Children := [] |} ];
         Roots := [0] |}).
  { rewrite BuildGraph_graphOf.
    unfold graphOf, childrenUpTo, isRootAt, feeds, anyMatch, requiresAt,
      createsAt.
    cbn -[Matches]. rewrite !Matches_refl, !H12, !H13. reflexivity. }
  assert (Hsel : closeLoop 3 [X; Y; Z] (seed [X; Y; Z] ["Z"])
    = Some {| candidates := [true; false; true];
              required := [L1]; names := [] |}).
  { unfold seed.
    repeat (progress (unfold closePass, closeStep, HasAnyLinks;
                      cbn -[Matches]; rewrite ?Matches_refl, ?H12, ?H13)).
    reflexivity. }
  assert (Hpart : BuildGraph [X; Z]
    = {| Nodes := [ {| NodeStep := X; Children := [1] |};
                    {| NodeStep := Z; Children := [] |} ];
         Roots := [0] |}).
  { rewrite BuildGraph_graphOf.
    unfold graphOf, childrenUpTo, isRootAt, feeds, anyMatch, requiresAt,
      createsAt.
    cbn -[Matches]. rewrite !Matches_refl, !H13. reflexivity. }
  split; [exact Hfull|]. split; [now rewrite Hfull|].
  split; [now rewrite Hsel|]. split; [reflexivity|]. split; [|reflexivity].
  unfold BuildPartialGraph, BuildPartialGraphFuel.
  change (length [X; Y; Z]) with 3. rewrite Hsel.
  cbn -[BuildGraph]. now rewrite Hpart.
Qed.

Lemma BuildGraph_scenario_witness :
  Roots (BuildGraph [ {| Name := "X"; Requires := [];
                         Creates := [InternalImageLink "l1"] |};
                      {| Name := "Y"; Requires := [InternalImageLink "l1"];
                         Creates := [InternalImageLink "l2"] |};
                      {| Name := "Z"; Requires := [InternalImageLink "l1"];
                         Creates := [InternalImageLink "l3"] |} ]) = [0].
Proof.
  destruct (BuildGraph_scenario (InternalImageLink "l1")
              (InternalImageLink "l2") (InternalImageLink "l3")
              eq_refl eq_refl eq_refl) as [H _].
  now rewrite H.
Defined.

(** ** More on [HasAnyLinks] and [addToNode] *)

Lemma HasAnyLinks_true steps candidates :
  HasAnyLinks steps candidates = true <->
  exists s c, In s steps /\ In c candidates /\ Matches s c = true.
Proof. rewrite HasAnyLinks_anyMatch. apply anyMatch_true. Qed.

(** X1: [HasAnyLinks] answers true exactly when some link of the first
    list matches some link of the second; the order of the two lists does
    not matter, and an empty list on either side gives false. *)
Theorem HasAnyLinks_exists_sym (steps candidates : list StepLink) :
  (HasAnyLinks steps candidates = true <->
   exists s c, In s steps /\ In c candidates /\ Matches s c = true) /\
  HasAnyLinks steps candidates = HasAnyLinks candidates steps /\
  HasAnyLinks [] candidates = false /\
  HasAnyLinks steps [] = false.
Proof.
  split; [apply HasAnyLinks_true|]. split; [|split].
  - apply eq_true_iff_eq. rewrite !HasAnyLinks_true. split.
    + intros (s & c & Hs & Hc & Hm). exists c, s.
      now rewrite Matches_sym.
    + intros (c & s & Hc & Hs & Hm). exists s, c.
      now rewrite Matches_sym.
  - apply not_true_is_false. intros H.
    apply HasAnyLinks_true in H as (s & c & [] & _).
  - reflexivity.
Qed.

(** X2: [addToNode] on a parent that is in the store.  Afterwards the
    child is among the children of the parent, whose step is the same; the
    other nodes and the number of nodes are the same.  The answer is true
    exactly when the child was not yet there, and then it is appended as
    the last child; on false the store is not changed.  A second call
    answers false and changes nothing, and children without duplicates
    stay without duplicates. *)
Theorem addToNode_appends_once (parent child : nat) (h : list StepNode)
    (p : StepNode) :
  h !! parent = Some p ->
  let h' := fst (addToNode parent child h) in
  let added := snd (addToNode parent child h) in
  length h' = length h /\
  (forall q, q <> parent -> h' !! q = h !! q) /\
  (exists p', h' !! parent = Some p' /\ NodeStep p' = NodeStep p /\
              In child (Children p') /\
              (List.NoDup (Children p) -> List.NoDup (Children p')) /\
              (added = true ->
               ~ In child (Children p) /\
               Children p' = Children p ++ [child]) /\
              (added = false -> In child (Children p) /\ h' = h)) /\
  addToNode parent child h' = (h', false).
Proof.
  intros Hp h' added. unfold h', added, addToNode. rewrite Hp.
  assert (Hlt : parent < length h) by (apply lookup_lt_is_Some; eauto).
  destruct (existsb (Nat.eqb child) (Children p)) eqn:E; simpl.
  - assert (Hin : In child (Children p)).
    { apply existsb_exists in E as (x & Hx & Hxc).
      apply Nat.eqb_eq in Hxc. now subst x. }
    repeat split; trivial.
    + exists p. repeat split; trivial; discriminate.
    + now rewrite Hp, E.
  - assert (Hnin : ~ In child (Children p)).
    { intros Hin. assert (existsb (Nat.eqb child) (Children p) = true).
      { apply existsb_exists. exists child. split; trivial.
        apply Nat.eqb_refl. }
      congruence. }
    split; [apply length_insert|]. split; [|split].
    + intros q Hq. now apply list_lookup_insert_ne.
    + eexists. split; [now apply list_lookup_insert_eq|]. simpl.
      repeat split; trivial; try discriminate.
      * apply in_or_app. right. now left.
      * intros Hnd. apply List.NoDup_app; repeat split; trivial.
        -- apply List.NoDup_cons; [intros []|apply List.NoDup_nil].
        -- intros x Hx [<-|[]]. now apply Hnin.
    + rewrite list_lookup_insert_eq by trivial. simpl.
      rewrite existsb_app. simpl. now rewrite Nat.eqb_refl, orb_true_r.
Qed.

Lemma addToNode_appends_once_witness :
  exists p',
    fst (addToNode 0 1 (allocNodes [releaseImagesTagStep; releaseImagesTagStep]))
    !! 0 = Some p' /\ In 1 (Children p').
Proof.
  destruct (addToNode_appends_once 0 1
              (allocNodes [releaseImagesTagStep; releaseImagesTagStep])
              {| NodeStep := releaseImagesTagStep; Children := [] |} eq_refl)
    as (_ & _ & (p' & Hp' & _ & Hin & _) & _).
  exists p'. split; [exact Hp'|exact Hin].
Defined.

(** ** More on the graph of [BuildGraph] *)

Lemma StronglySorted_filter_seq (f : nat -> bool) n : forall i,
  StronglySorted lt (List.filter f (seq i n)).
Proof.
  induction n as [|n IH]; intros i; simpl; [constructor|].
  destruct (f i); [|apply IH]. constructor; [apply IH|].
  apply List.Forall_forall. intros x Hx.
  apply List.filter_In in Hx as [Hx _]. apply List.in_seq in Hx. lia.
Qed.

Lemma Forall_filter_seq (f : nat -> bool) n :
  List.Forall (fun x => x < n) (List.filter f (seq 0 n)).
Proof.
  apply List.Forall_forall. intros x Hx.
  apply List.filter_In in Hx as [Hx _]. apply List.in_seq in Hx. lia.
Qed.

Lemma filter_none {A} (f : A -> bool) l :
  (forall x, In x l -> f x = false) -> List.filter f l = [].
Proof.
  induction l as [|a l IH]; intros H; simpl; trivial.
  rewrite (H a) by now left. apply IH. intros x Hx. apply H. now right.
Qed.

Lemma filter_all {A} (f : A -> bool) l :
  (forall x, In x l -> f x = true) -> List.filter f l = l.
Proof.
  induction l as [|a l IH]; intros H; simpl; trivial.
  rewrite (H a) by now left. f_equal. apply IH. intros x Hx. apply H.
  now right.
Qed.

Lemma flat_map_seq_lookup {A B} (g : A -> list B) (f : nat -> list B)
    (l : list A) : forall k,
  (forall i x, l !! i = Some x -> f (k + i) = g x) ->
  flat_map f (seq k (length l)) = flat_map g l.
Proof.
  induction l as [|a l IH]; intros k H; simpl; trivial.
  rewrite <- (H 0 a eq_refl), Nat.add_0_r. f_equal. apply IH.
  intros i x Hi. rewrite <- (H (S i) x Hi). f_equal. lia.
Qed.

Lemma flat_map_singleton {A B} (g : A -> B) (l : list A) :
  flat_map (fun x => [g x]) l = map g l.
Proof. induction l as [|a l IH]; simpl; now rewrite ?IH. Qed.

Lemma feeds_lookup steps i j a b :
  steps !! i = Some a -> steps !! j = Some b ->
  feeds steps i j = anyMatch (Requires b) (Creates a).
Proof.
  intros Ha Hb. unfold feeds, requiresAt, createsAt. now rewrite Ha, Hb.
Qed.

(** When no step creates a link that a step requires, [BuildGraph] leaves
    every node without children and returns every node as a root. *)
Lemma BuildGraph_isolated steps :
  (forall i j a b, steps !! i = Some a -> steps !! j = Some b ->
     anyMatch (Requires b) (Creates a) = false) ->
  BuildGraph steps
  = {| Nodes := allocNodes steps; Roots := seq 0 (length steps) |}.
Proof.
  intros Hno. rewrite BuildGraph_graphOf. unfold graphOf. f_equal.
  - apply list_eq. intros p. unfold allocNodes.
    change (map ?f steps) with (f <$> steps).
    rewrite list_lookup_imap, list_lookup_fmap.
    destruct (steps !! p) as [a|] eqn:Ha; simpl; trivial.
    do 2 f_equal. unfold childrenUpTo. apply filter_none.
    intros j Hj. apply List.in_seq in Hj.
    destruct (lookup_lt_is_Some_2 steps j) as [b Hb]; [lia|].
    rewrite (feeds_lookup _ _ _ _ _ Ha Hb). now apply (Hno p j).
  - apply filter_all. intros j Hj. apply List.in_seq in Hj.
    destruct (lookup_lt_is_Some_2 steps j) as [b Hb]; [lia|].
    unfold isRootAt. apply forallb_forall. intros i Hi.
    apply List.in_seq in Hi.
    destruct (lookup_lt_is_Some_2 steps i) as [a Ha]; [lia|].
    rewrite (feeds_lookup _ _ _ _ _ Ha Hb). now rewrite (Hno i j).
Qed.

Lemma forest_allocNodes steps :
  forest {| Nodes := allocNodes steps; Roots := seq 0 (length steps) |}
  = map (fun s => TreeNode s []) steps.
Proof.
  unfold forest. simpl. unfold allocNodes at 1. rewrite List.length_map.
  rewrite <- flat_map_singleton.
  apply (flat_map_seq_lookup (fun s => [TreeNode s []])).
  intros i x Hi. simpl.
  destruct (length steps) as [|d] eqn:Hlen.
  - apply lookup_lt_Some in Hi. lia.
  - simpl. unfold allocNodes. change (map ?f steps) with (f <$> steps).
    now rewrite list_lookup_fmap, Hi.
Qed.

(** X3: the store that [BuildGraph] returns has one node per step, in the
    order of the steps and with that step; the roots are in range and in
    increasing order, and so are the children of every node: no pointer
    dangles and none is repeated. *)
Theorem BuildGraph_store_shape (steps : list Step) :
  let g := BuildGraph steps in
  map NodeStep (Nodes g) = steps /\
  StronglySorted lt (Roots g) /\
  List.Forall (fun r => r < length steps) (Roots g) /\
  List.Forall (fun nd => StronglySorted lt (Children nd) /\
                         List.Forall (fun c => c < length steps) (Children nd))
              (Nodes g).
Proof.
  intros g. unfold g. rewrite BuildGraph_graphOf. simpl.
  split; [|split; [|split]].
  - apply list_eq. intros p. change (map ?f ?l) with (f <$> l).
    rewrite list_lookup_fmap, list_lookup_imap.
    now destruct (steps !! p).
  - apply StronglySorted_filter_seq.
  - apply Forall_filter_seq.
  - apply List.Forall_forall. intros nd Hnd.
    apply list_elem_of_In, list_elem_of_lookup in Hnd as [p Hp].
    rewrite list_lookup_imap in Hp.
    destruct (steps !! p); [|discriminate]. injection Hp as <-. simpl.
    split; [apply StronglySorted_filter_seq|apply Forall_filter_seq].
Qed.

(** X4: [BuildGraph] returns a forest of singletons, every step a root
    without children and in the order of the steps, exactly when no step
    of the input creates a link that matches a link a step of the input
    requires. *)
Theorem BuildGraph_singletons (steps : list Step) :
  (forall i j a b, steps !! i = Some a -> steps !! j = Some b ->
     anyMatch (Requires b) (Creates a) = false) <->
  BuildGraph steps
  = {| Nodes := allocNodes steps; Roots := seq 0 (length steps) |} /\
  forest (BuildGraph steps) = map (fun s => TreeNode s []) steps.
Proof.
  split.
  - intros Hno. rewrite (BuildGraph_isolated _ Hno).
    split; [reflexivity|apply forest_allocNodes].
  - intros [Hg _] i j a b Ha Hb. apply not_true_is_false. intros Hm.
    assert (Hc : child (BuildGraph steps) i j).
    { apply BuildGraph_child. rewrite (feeds_lookup _ _ _ _ _ Ha Hb).
      apply lookup_lt_Some in Ha. apply lookup_lt_Some in Hb. auto. }
    rewrite Hg in Hc. destruct Hc as (nd & Hnd & Hin). simpl in Hnd.
    unfold allocNodes in Hnd. change (map ?f steps) with (f <$> steps) in Hnd.
    rewrite list_lookup_fmap, Ha in Hnd. injection Hnd as <-. destruct Hin.
Qed.

Lemma BuildGraph_singletons_witness :
  Roots (BuildGraph [releaseImagesTagStep; inputImageTagStep
           {| ImageStreamTagReference.Namespace := "openshift";
              ImageStreamTagReference.Name := "origin-v3.10";
              ImageStreamTagReference.Tag := "base" |} "base"]) = [0; 1].
Proof.
  refine (f_equal Roots (proj1 (proj1 (BuildGraph_singletons _) _))).
  intros [|[|i]] [|[|j]] a b Ha Hb; try discriminate;
    injection Ha as <-; injection Hb as <-; reflexivity.
Defined.

(** X5: in the graph of [BuildGraph] a node is a root exactly when it is
    the child of no node: every node is a root or has a parent, never
    both. *)
Theorem BuildGraph_root_iff_no_parent (steps : list Step) (r : nat) :
  r < length steps ->
  (In r (Roots (BuildGraph steps)) <->
   forall p, ~ child (BuildGraph steps) p r).
Proof.
  intros Hr. rewrite BuildGraph_root. unfold isRootAt.
  rewrite forallb_forall. split.
  - intros [_ H] p Hc. apply BuildGraph_child in Hc as (Hp & _ & Hf).
    assert (Hin : In p (seq 0 (length steps))) by (apply List.in_seq; lia).
    apply H in Hin. rewrite Hf in Hin. discriminate Hin.
  - intros H. split; trivial. intros p Hp. apply List.in_seq in Hp.
    apply negb_true_iff, not_true_is_false. intros Hf.
    apply (H p). apply BuildGraph_child. repeat split; trivial; lia.
Qed.

Lemma BuildGraph_root_iff_no_parent_witness :
  In 0 (Roots (BuildGraph [releaseImagesTagStep])).
Proof.
  apply (BuildGraph_root_iff_no_parent [releaseImagesTagStep] 0).
  - simpl. lia.
  - intros p Hc. apply BuildGraph_child in Hc as (Hp & _ & Hf).
    simpl in Hp. assert (p = 0) by lia. subst p. discriminate Hf.
Defined.

(** X6: the two steps of package [steps] never depend on one another: an
    [inputImageTagStep] requires an external image link, which neither
    creates, and a [releaseImagesTagStep] requires nothing.  In any list
    of such steps every step is a root without children. *)
Theorem BuildGraph_input_and_release_steps (steps : list Step) :
  (forall s, In s steps ->
     s = releaseImagesTagStep \/
     exists baseImage to, s = inputImageTagStep baseImage to) ->
  BuildGraph steps
  = {| Nodes := allocNodes steps; Roots := seq 0 (length steps) |}.
Proof.
  intros Hkind. apply BuildGraph_isolated. intros i j a b Ha Hb.
  assert (Hia : In a steps)
    by (apply list_elem_of_In, list_elem_of_lookup; eauto).
  assert (Hib : In b steps)
    by (apply list_elem_of_In, list_elem_of_lookup; eauto).
  destruct (Hkind b Hib) as [->|(bb & tb & ->)]; [reflexivity|].
  destruct (Hkind a Hia) as [->|(ba & ta & ->)]; reflexivity.
Qed.

Lemma BuildGraph_input_and_release_steps_witness :
  Roots (BuildGraph [inputImageTagStep
           {| ImageStreamTagReference.Namespace := "openshift";
              ImageStreamTagReference.Name := "origin-v3.10";
              ImageStreamTagReference.Tag := "base" |} "base";
         releaseImagesTagStep]) = [0; 1].
Proof.
  refine (f_equal Roots (BuildGraph_input_and_release_steps _ _)).
  intros s [<-|[<-|[]]]; [right; eauto|left; reflexivity].
Defined.

(** ** The selection of [BuildPartialGraph] *)

Lemma forRange_ind {A St : Type} (body : nat -> A -> St -> St)
    (Inv : nat -> St -> Prop) (l : list A) : forall i st,
  Inv i st ->
  (forall k x s, l !! k = Some x -> Inv (i + k) s ->
     Inv (S (i + k)) (body (i + k) x s)) ->
  Inv (i + length l) (forRange body i l st).
Proof.
  induction l as [|a l IH]; intros i st H0 Hstep; simpl.
  - now rewrite Nat.add_0_r.
  - rewrite Nat.add_succ_r. apply (IH (S i)).
    + specialize (Hstep 0 a st eq_refl). rewrite Nat.add_0_r in Hstep. auto.
    + intros k x s Hk Hs. specialize (Hstep (S k) x s Hk).
      rewrite Nat.add_succ_r in Hstep. auto.
Qed.

Lemma coversMarked_mark steps sel k x nm :
  steps !! k = Some x -> coversMarked steps sel ->
  coversMarked steps {| candidates := <[k := true]> (candidates sel);
                        required := required sel ++ Requires x;
                        names := nm |}.
Proof.
  intros Hk Hcov i r Hi Hr. simpl in *. apply in_or_app.
  destruct (decide (k = i)) as [<-|Hne].
  - right. unfold requiresAt in Hr. now rewrite Hk in Hr.
  - left. rewrite list_lookup_insert_ne in Hi by trivial. eauto.
Qed.

Lemma requiredByMarked_mark steps sel k x nm :
  steps !! k = Some x -> length (candidates sel) = length steps ->
  requiredByMarked steps sel ->
  requiredByMarked steps {| candidates := <[k := true]> (candidates sel);
                            required := required sel ++ Requires x;
                            names := nm |}.
Proof.
  intros Hk Hlen Hby r Hr. simpl in *.
  assert (Hkk : <[k := true]> (candidates sel) !! k = Some true).
  { apply list_lookup_insert_eq. rewrite Hlen. now apply lookup_lt_Some in Hk. }
  apply in_app_or in Hr as [Hr|Hr].
  - destruct (Hby r Hr) as (i & Hi & Hri). exists i. split; trivial.
    destruct (decide (k = i)) as [<-|Hne]; trivial.
    now rewrite list_lookup_insert_ne.
  - exists k. split; trivial. unfold requiresAt. now rewrite Hk.
Qed.

Lemma seed_required steps names0 :
  coversMarked steps (seed steps names0) /\
  requiredByMarked steps (seed steps names0).
Proof.
  unfold seed.
  pose proof (forRange_ind seedStep
    (fun _ st => length (candidates st) = length steps /\
                 coversMarked steps st /\ requiredByMarked steps st)
    steps 0 {| candidates := replicate (length steps) false;
               required := []; names := names0 |}) as H.
  destruct H as (_ & Hc & Hb); [| |auto].
  - simpl. split; [apply length_replicate|]. split.
    + intros i r Hi. simpl in Hi. apply lookup_replicate in Hi as [Hi _].
      discriminate Hi.
    + intros r [].
  - intros k x st Hk (Hlen & Hc & Hb). simpl. unfold seedStep.
    destruct (findName (Name x) (names st)); [|auto].
    simpl. split; [now rewrite length_insert|]. split.
    + now apply coversMarked_mark.
    + now apply requiredByMarked_mark.
Qed.

Lemma closing_seed steps names0 :
  closing steps (candidates (seed steps names0)) (seed steps names0).
Proof.
  destruct (seed_required steps names0) as [Hc Hb].
  destruct (seed_marked steps names0) as [Hlen _].
  repeat split; trivial. intros j Hj. now apply needed_seed.
Qed.

Lemma closeStep_closing steps seeds k x sel added :
  steps !! k = Some x -> closing steps seeds sel ->
  closing steps seeds (fst (closeStep k x (sel, added))).
Proof.
  intros Hk Hcl. pose proof Hcl as (Hlen & Hmono & Hc & Hb & Hn).
  unfold closeStep.
  destruct (default false (candidates sel !! k)) eqn:Hck; [exact Hcl|].
  destruct (HasAnyLinks (required sel) (Creates x)) eqn:Hany; [|exact Hcl].
  simpl.
  assert (Hkk : <[k := true]> (candidates sel) !! k = Some true).
  { apply list_lookup_insert_eq. rewrite Hlen. now apply lookup_lt_Some in Hk. }
  split; [simpl; now rewrite length_insert|]. split; [|split; [|split]].
  - intros j Hj. simpl. destruct (decide (k = j)) as [<-|Hne]; trivial.
    rewrite list_lookup_insert_ne by trivial. auto.
  - now apply coversMarked_mark.
  - now apply requiredByMarked_mark.
  - intros j Hj. simpl in Hj. destruct (decide (k = j)) as [<-|Hne].
    + apply HasAnyLinks_true in Hany as (r & c & Hr & Hcr & Hm).
      destruct (Hb r Hr) as (i & Hi & Hri).
      apply needed_producer with i; [auto|now apply lookup_lt_Some in Hk|].
      unfold feeds. apply anyMatch_true. exists r, c.
      repeat split; trivial. unfold createsAt. now rewrite Hk.
    + rewrite list_lookup_insert_ne in Hj by trivial. auto.
Qed.

Lemma closePass_closing steps seeds sel :
  closing steps seeds sel ->
  closing steps seeds (fst (closePass steps sel)).
Proof.
  intros Hcl. unfold closePass.
  apply (forRange_ind closeStep
           (fun _ st => closing steps seeds (fst st)) steps 0 (sel, 0) Hcl).
  intros k x [s a] Hk Hs. now apply closeStep_closing.
Qed.

Lemma closePass_quiet steps sel :
  snd (closePass steps sel) = 0 ->
  fst (closePass steps sel) = sel /\ closed steps sel.
Proof.
  unfold closePass.
  pose proof (forRange_ind closeStep
    (fun k st => snd st = 0 ->
       fst st = sel /\
       forall k' x, k' < k -> steps !! k' = Some x ->
         candidates sel !! k' = Some false ->
         HasAnyLinks (required sel) (Creates x) = false)
    steps 0 (sel, 0)) as H.
  simpl in H. intros H0. destruct H as [Hsel Hq]; trivial.
  - intros _. split; trivial. intros k' x Hlt. lia.
  - intros k x [s a] Hk IH. unfold closeStep. simpl in *.
    destruct (default false (candidates s !! k)) eqn:Hck; simpl.
    + intros Ha. destruct (IH Ha) as [-> Hq]. split; trivial.
      intros k' x' Hlt Hk' Hc'. destruct (decide (k' = k)) as [->|Hne].
      * rewrite Hc' in Hck. discriminate Hck.
      * apply (Hq k'); trivial. lia.
    + destruct (HasAnyLinks (required s) (Creates x)) eqn:Hany; simpl;
        [discriminate|].
      intros Ha. destruct (IH Ha) as [-> Hq]. split; trivial.
      intros k' x' Hlt Hk' Hc'. destruct (decide (k' = k)) as [->|Hne].
      * rewrite Hk in Hk'. now injection Hk' as <-.
      * apply (Hq k'); trivial. lia.
  - split; trivial. intros k x Hk Hc. apply (Hq k x); trivial.
    eapply lookup_lt_Some; eauto.
Qed.

Lemma closeLoop_closing steps seeds : forall fuel sel sel',
  closing steps seeds sel -> closeLoop fuel steps sel = Some sel' ->
  closing steps seeds sel' /\ closed steps sel'.
Proof.
  induction fuel as [|fuel IH]; intros sel sel' Hcl H; [discriminate|].
  simpl in H. pose proof (closePass_closing _ _ _ Hcl) as Hcl1.
  pose proof (closePass_quiet steps sel) as Hq.
  destruct (closePass steps sel) as [sel1 added]. simpl in *.
  destruct (Nat.eqb added 0) eqn:Ha.
  - apply Nat.eqb_eq in Ha. injection H as <-.
    destruct (Hq Ha) as [-> Hclosed]. auto.
  - now apply (IH sel1).
Qed.

Lemma closed_needed steps seeds sel j :
  closing steps seeds sel -> closed steps sel ->
  needed steps seeds j -> candidates sel !! j = Some true.
Proof.
  intros (Hlen & Hmono & Hc & Hb & Hn) Hclosed Hj.
  induction Hj as [j Hj|i j _ IH Hlt Hf]; [auto|].
  destruct (lookup_lt_is_Some_2 steps j Hlt) as [x Hx].
  destruct (lookup_lt_is_Some_2 (candidates sel) j) as [[|] Hcj];
    [lia|trivial|].
  exfalso. pose proof (Hclosed j x Hx Hcj) as Hno.
  unfold feeds in Hf. apply anyMatch_true in Hf as (r & c & Hr & Hcr & Hm).
  assert (Hany : HasAnyLinks (required sel) (Creates x) = true).
  { apply HasAnyLinks_true. exists r, c. repeat split; trivial.
    - now apply (Hc i).
    - unfold createsAt in Hcr. now rewrite Hx in Hcr. }
  congruence.
Qed.

(** X7: the selection that the closure loop ends with.  Whatever the number
    of passes, a step has its flag set at the end exactly when it is
    needed: it was selected by a requested name, or it creates a link that
    matches a link required by a needed step.  The flags of the seeds stay
    set, and no step without a flag creates a link that matches a link
    required by a selected step. *)
Theorem closeLoop_selects_needed (steps : list Step) (names0 : list string)
    (fuel : nat) (sel' : Selection) :
  closeLoop fuel steps (seed steps names0) = Some sel' ->
  length (candidates sel') = length steps /\
  (forall j, candidates sel' !! j = Some true <->
             needed steps (candidates (seed steps names0)) j) /\
  (forall i j, candidates sel' !! i = Some true -> j < length steps ->
               feeds steps j i = true -> candidates sel' !! j = Some true).
Proof.
  intros H.
  destruct (closeLoop_closing _ _ _ _ _ (closing_seed steps names0) H)
    as [Hcl Hclosed].
  split; [apply Hcl|]. split.
  - intros j. split; [apply Hcl|]. now apply closed_needed.
  - intros i j Hi Hj Hf. apply (closed_needed _ _ _ _ Hcl Hclosed).
    apply needed_producer with i; trivial. now apply Hcl.
Qed.

Lemma closeLoop_selects_needed_witness :
  candidates {| candidates := [true; true];
                required := [InternalImageLink "root"];
                names := [] |} !! 0 = Some true.
Proof.
  apply (closeLoop_selects_needed
           [ {| Name := "root"; Requires := [];
                Creates := [InternalImageLink "root"] |};
             {| Name := "src"; Requires := [InternalImageLink "root"];
                Creates := [InternalImageLink "src"] |} ] ["src"] 2
           {| candidates := [true; true];
              required := [InternalImageLink "root"];
              names := [] |} eq_refl).
  apply needed_producer with 1; [|simpl; lia|reflexivity].
  now apply needed_seed.
Defined.

(** ** The steps of the partial graph *)

Lemma targetedSteps_loop steps cs : forall i acc,
  forRange (targetStep steps) i cs acc
  = acc ++ map fst (List.filter snd (combine (drop i steps) cs)).
Proof.
  induction cs as [|c cs IH]; intros i acc; simpl.
  - rewrite List.combine_nil. simpl. now rewrite app_nil_r.
  - rewrite IH. unfold targetStep.
    destruct (steps !! i) as [x|] eqn:Hx.
    + rewrite (drop_S _ _ _ Hx). simpl.
      destruct c; simpl; trivial. now rewrite <- app_assoc.
    + apply lookup_ge_None in Hx.
      rewrite !drop_ge by lia. simpl. now destruct c.
Qed.

Lemma targetedSteps_filter steps cands :
  targetedSteps steps cands
  = map fst (List.filter snd (combine steps cands)).
Proof. unfold targetedSteps. now rewrite targetedSteps_loop. Qed.

Lemma In_combine_lookup {A B} (l1 : list A) : forall (l2 : list B) x y,
  In (x, y) (combine l1 l2) <->
  exists j, l1 !! j = Some x /\ l2 !! j = Some y.
Proof.
  induction l1 as [|a l1 IH]; intros [|b l2] x y; simpl.
  - split; [intros []|intros (j & H & _); discriminate].
  - split; [intros []|intros (j & H & _); discriminate].
  - split; [intros []|intros (j & _ & H); discriminate].
  - rewrite IH. split.
    + intros [[= -> ->]|(j & H1 & H2)]; [now exists 0|now exists (S j)].
    + intros ([|j] & H1 & H2); simpl in *.
      * left. congruence.
      * right. eauto.
Qed.

Lemma In_targetedSteps steps cands a :
  In a (targetedSteps steps cands) <->
  exists j, steps !! j = Some a /\ cands !! j = Some true.
Proof.
  rewrite targetedSteps_filter, in_map_iff. split.
  - intros ([x c] & <- & H). apply List.filter_In in H as [H Hc].
    simpl in Hc. subst c. now apply In_combine_lookup in H.
  - intros H. exists (a, true). split; trivial.
    apply List.filter_In. split; trivial. now apply In_combine_lookup.
Qed.

Lemma BuildGraph_node_steps steps :
  map NodeStep (Nodes (BuildGraph steps)) = steps.
Proof.
  rewrite BuildGraph_graphOf. simpl. apply list_eq. intros p.
  change (map ?f ?l) with (f <$> l).
  rewrite list_lookup_fmap, list_lookup_imap. now destruct (steps !! p).
Qed.

Lemma BuildPartialGraph_inl steps names0 g :
  names0 <> [] -> BuildPartialGraph steps names0 = Some (inl g) ->
  names (seed steps names0) = [] /\
  exists sel',
    closeLoop (length steps) steps (seed steps names0) = Some sel' /\
    g = BuildGraph (targetedSteps steps (candidates sel')).
Proof.
  intros Hne. unfold BuildPartialGraph, BuildPartialGraphFuel.
  destruct names0 as [|n names0]; [congruence|]. simpl.
  destruct (names (seed steps (n :: names0))) as [|l ls]; simpl;
    [|discriminate].
  destruct (closeLoop _ _ _) as [sel'|]; [|discriminate].
  intros [= <-]. eauto.
Qed.

Lemma isRootAt_true steps node b :
  steps !! node = Some b ->
  (isRootAt steps node = true <->
   forall a, In a steps -> anyMatch (Requires b) (Creates a) = false).
Proof.
  intros Hb. unfold isRootAt. rewrite forallb_forall. split.
  - intros H a Ha. apply list_elem_of_In, list_elem_of_lookup in Ha as [i Hi].
    assert (Hin : In i (seq 0 (length steps))).
    { apply List.in_seq. apply lookup_lt_Some in Hi. lia. }
    apply H in Hin. rewrite (feeds_lookup _ _ _ _ _ Hi Hb) in Hin.
    now apply negb_true_iff in Hin.
  - intros H i Hi. apply List.in_seq in Hi.
    destruct (lookup_lt_is_Some_2 steps i) as [a Ha]; [lia|].
    rewrite (feeds_lookup _ _ _ _ _ Ha Hb). apply negb_true_iff, H.
    apply list_elem_of_In, list_elem_of_lookup. eauto.
Qed.

Lemma targetedSteps_returned steps cands (rank : nat -> nat) s :
  let T := targetedSteps steps cands in
  (forall p n, p < length T -> n < length T ->
     feeds T p n = true -> rank p < rank n) ->
  In s T ->
  exists k nd, inForest (BuildGraph T) k /\
               Nodes (BuildGraph T) !! k = Some nd /\ NodeStep nd = s.
Proof.
  intros T Hrank Hs.
  apply list_elem_of_In, list_elem_of_lookup in Hs as [k Hk].
  exists k. eexists. split; [|split; [apply (BuildGraph_lookup _ _ _ Hk)|]].
  - apply (BuildGraph_acyclic_inForest T rank Hrank).
    eapply lookup_lt_Some; eauto.
  - reflexivity.
Qed.

Lemma inForest_lookup steps k :
  inForest (BuildGraph steps) k -> k < length steps.
Proof.
  intros H. destruct H as [r Hr|p c _ Hc].
  - now apply BuildGraph_root in Hr.
  - now apply BuildGraph_child in Hc.
Qed.

(** X8: when names are requested and [BuildPartialGraph] returns a graph,
    the graph is that of [BuildGraph] on the steps whose flag is set when
    the closure loop ends, in the order of the input.  Every node of the
    returned forest holds one of these steps; and when these steps have no
    dependency cycle, each of them is held by a node of the returned
    forest. *)
Theorem BuildPartialGraph_nodes (steps : list Step) (names0 : list string)
    (g : Graph) :
  names0 <> [] -> BuildPartialGraph steps names0 = Some (inl g) ->
  exists sel',
    closeLoop (length steps) steps (seed steps names0) = Some sel' /\
    g = BuildGraph (map fst (List.filter snd
                               (combine steps (candidates sel')))) /\
    (forall k nd, inForest g k -> Nodes g !! k = Some nd ->
       exists j, steps !! j = Some (NodeStep nd) /\
                 candidates sel' !! j = Some true) /\
    (forall (rank : nat -> nat) j s,
       (forall p n,
          p < length (map fst (List.filter snd
                                 (combine steps (candidates sel')))) ->
          n < length (map fst (List.filter snd
                                 (combine steps (candidates sel')))) ->
          feeds (map fst (List.filter snd (combine steps (candidates sel'))))
                p n = true ->
          rank p < rank n) ->
       steps !! j = Some s -> candidates sel' !! j = Some true ->
       exists k nd, inForest g k /\ Nodes g !! k = Some nd /\
                    NodeStep nd = s).
Proof.
  intros Hne H.
  destruct (BuildPartialGraph_inl _ _ _ Hne H) as (_ & sel' & Hsel' & ->).
  exists sel'. split; trivial. rewrite <- targetedSteps_filter.
  split; trivial. split.
  - intros k nd Hk Hnd. apply In_targetedSteps.
    apply inForest_lookup in Hk.
    destruct (lookup_lt_is_Some_2 _ _ Hk) as [s Hs].
    rewrite (BuildGraph_lookup _ _ _ Hs) in Hnd. injection Hnd as <-. simpl.
    apply list_elem_of_In, list_elem_of_lookup. eauto.
  - intros rank j s Hrank Hj Hc.
    apply (targetedSteps_returned steps (candidates sel') rank s Hrank).
    apply In_targetedSteps. eauto.
Qed.

Lemma BuildPartialGraph_nodes_witness :
  exists sel',
    closeLoop 3 srcBinTest (seed srcBinTest ["test"]) = Some sel' /\
    srcTestGraph
    = BuildGraph (map fst (List.filter snd
                             (combine srcBinTest (candidates sel')))).
Proof.
  destruct (BuildPartialGraph_nodes srcBinTest ["test"] srcTestGraph)
    as (sel' & Hsel' & Hg & _).
  - discriminate.
  - reflexivity.
  - exists sel'. split; [exact Hsel'|exact Hg].
Defined.

(** X9: the partial graph cuts no dependency.  A node of the graph that
    [BuildPartialGraph] returns for requested names is a root exactly when
    no step of the whole input, selected or not, creates a link that
    matches a link its step requires. *)
Theorem BuildPartialGraph_roots (steps : list Step) (names0 : list string)
    (g : Graph) (k : nat) (nd : StepNode) :
  names0 <> [] -> BuildPartialGraph steps names0 = Some (inl g) ->
  Nodes g !! k = Some nd ->
  (In k (Roots g) <->
   forall a, In a steps ->
     anyMatch (Requires (NodeStep nd)) (Creates a) = false).
Proof.
  intros Hne H Hk.
  destruct (BuildPartialGraph_inl _ _ _ Hne H) as (_ & sel' & Hsel' & ->).
  destruct (closeLoop_closing _ _ _ _ _ (closing_seed steps names0) Hsel')
    as [Hcl Hclosed].
  set (T := targetedSteps steps (candidates sel')) in *.
  assert (HT : T !! k = Some (NodeStep nd)).
  { rewrite <- (BuildGraph_node_steps T).
    change (map ?f ?l) with (f <$> l).
    now rewrite list_lookup_fmap, Hk. }
  rewrite BuildGraph_root, (isRootAt_true _ _ _ HT).
  assert (Hb : In (NodeStep nd) T)
    by (apply list_elem_of_In, list_elem_of_lookup; eauto).
  apply In_targetedSteps in Hb as (jb & Hjb & Hcb).
  split.
  - intros [_ Hroot] a Ha. apply not_true_is_false. intros Hm.
    apply list_elem_of_In, list_elem_of_lookup in Ha as [ja Hja].
    assert (Hsel : candidates sel' !! ja = Some true).
    { apply (closed_needed _ _ _ _ Hcl Hclosed).
      apply needed_producer with jb.
      - now apply Hcl.
      - eapply lookup_lt_Some; eauto.
      - now rewrite (feeds_lookup _ _ _ _ _ Hja Hjb). }
    rewrite (Hroot a) in Hm; [discriminate|].
    apply In_targetedSteps. eauto.
  - intros Hno. split; [eapply lookup_lt_Some; eauto|].
    intros a Ha. apply Hno. apply In_targetedSteps in Ha as (j & Hj & _).
    apply list_elem_of_In, list_elem_of_lookup. eauto.
Qed.

Lemma BuildPartialGraph_roots_witness :
  In 0 (Roots srcTestGraph) /\ ~ In 1 (Roots srcTestGraph).
Proof.
  split.
  - apply (BuildPartialGraph_roots srcBinTest ["test"] srcTestGraph 0
             {| NodeStep := srcStep; Children := [1] |}).
    + discriminate.
    + reflexivity.
    + reflexivity.
    + intros a _. reflexivity.
  - intros Hroot.
    assert (Hne : ["test"%string] <> []) by discriminate.
    pose proof (proj1 (BuildPartialGraph_roots srcBinTest ["test"]
                         srcTestGraph 1
                         {| NodeStep := testStep; Children := [] |}
                         Hne eq_refl eq_refl) Hroot srcStep) as Hf.
    simpl in Hf. assert (Hf' : true = false) by (apply Hf; auto).
    discriminate Hf'.
Defined.

(** ** The names left over and the seeds *)

Lemma consume_sublist nm ns : consume nm ns `sublist_of` ns.
Proof.
  induction ns as [|n ns IH]; simpl; [constructor|].
  destruct (String.eqb n nm).
  - now apply sublist_cons.
  - now apply sublist_skip.
Qed.

Lemma leftover_sublist steps : forall ns,
  fold_left (fun ns s => consume (Name s) ns) steps ns `sublist_of` ns.
Proof.
  induction steps as [|s steps IH]; intros ns; simpl; [reflexivity|].
  etransitivity; [apply IH|apply consume_sublist].
Qed.

Lemma stepsNamed_0 x steps :
  stepsNamed x steps = 0 <-> forall s, In s steps -> Name s <> x.
Proof.
  unfold stepsNamed. induction steps as [|a steps IH]; simpl.
  - split; [intros _ s []|trivial].
  - destruct (String.eqb (Name a) x) eqn:E; simpl.
    + apply String.eqb_eq in E. split; [discriminate|].
      intros H. now destruct (H a (or_introl eq_refl)).
    + apply String.eqb_neq in E. rewrite IH. split.
      * intros H s [<-|Hs]; auto.
      * intros H s Hs. apply H. now right.
Qed.

Lemma stepsNamed_pos x steps s :
  In s steps -> Name s = x -> 0 < stepsNamed x steps.
Proof.
  intros Hs Hx. destruct (stepsNamed x steps) eqn:E; [|lia].
  pose proof (proj1 (stepsNamed_0 _ _) E) as E'. now destruct (E' s Hs).
Qed.

Lemma findName_In nm ns j : findName nm ns = Some j -> In nm ns.
Proof.
  revert j. induction ns as [|n ns IH]; intros j; simpl; [discriminate|].
  destruct (String.eqb n nm) eqn:E; simpl.
  - apply String.eqb_eq in E. auto.
  - destruct (findName nm ns) as [j'|]; [|discriminate]. intros _. eauto.
Qed.

(** X10: the names that the error of [BuildPartialGraph] reports are a
    subsequence of the requested names, in the order of the request, and
    a requested name that no step has is always among them, so that the
    call fails. *)
Theorem BuildPartialGraph_unknown_name (steps : list Step)
    (names0 : list string) :
  names (seed steps names0) `sublist_of` names0 /\
  forall x, In x names0 -> (forall s, In s steps -> Name s <> x) ->
    In x (names (seed steps names0)) /\
    BuildPartialGraph steps names0
    = Some (inr (notFoundError (names (seed steps names0)))).
Proof.
  split.
  - unfold seed. rewrite seed_loop_names. apply leftover_sublist.
  - intros x Hx Hno.
    assert (Hin : In x (names (seed steps names0))).
    { apply (count_occ_In string_dec). rewrite seed_names_count.
      rewrite (proj2 (stepsNamed_0 _ _) Hno).
      apply (count_occ_In string_dec) in Hx. lia. }
    split; trivial. apply BuildPartialGraph_leftover.
    intros Hnil. rewrite Hnil in Hin. destruct Hin.
Qed.

Lemma BuildPartialGraph_unknown_name_witness :
  In "e2e" (names (seed [releaseImagesTagStep] ["unit"; "e2e"])).
Proof.
  apply (BuildPartialGraph_unknown_name [releaseImagesTagStep]
           ["unit"; "e2e"]).
  - simpl. auto.
  - intros s [<-|[]]. discriminate.
Defined.

(** X11: requested names without repetition, each the name of some step,
    are all consumed: [BuildPartialGraph] returns a graph and no error,
    and the scan has selected as many steps as names were requested. *)
Theorem BuildPartialGraph_distinct_names (steps : list Step)
    (names0 : list string) :
  List.NoDup names0 ->
  (forall x, In x names0 -> exists s, In s steps /\ Name s = x) ->
  names (seed steps names0) = [] /\
  marked (candidates (seed steps names0)) = length names0 /\
  exists g, BuildPartialGraph steps names0 = Some (inl g).
Proof.
  intros Hnd Hall.
  assert (Hnil : names (seed steps names0) = []).
  { apply (count_occ_inv_nil string_dec). intros x.
    rewrite seed_names_count.
    pose proof (proj1 (List.NoDup_count_occ string_dec names0) Hnd x) as Hle.
    destruct (in_dec string_dec x names0) as [Hx|Hx].
    - destruct (Hall x Hx) as (s & Hs & Hsx).
      pose proof (stepsNamed_pos _ _ _ Hs Hsx). lia.
    - apply (count_occ_not_In string_dec) in Hx. lia. }
  split; trivial. split.
  - destruct (seed_marked steps names0) as [_ Hsum].
    rewrite Hnil in Hsum. simpl in Hsum. lia.
  - now apply BuildPartialGraph_no_leftover.
Qed.

Lemma BuildPartialGraph_distinct_names_witness :
  exists g,
    BuildPartialGraph
      [ {| Name := "root"; Requires := [];
           Creates := [InternalImageLink "root"] |};
        {| Name := "src"; Requires := [InternalImageLink "root"];
           Creates := [InternalImageLink "src"] |} ] ["src"; "root"]
    = Some (inl g).
Proof.
  apply (BuildPartialGraph_distinct_names
           [ {| Name := "root"; Requires := [];
                Creates := [InternalImageLink "root"] |};
             {| Name := "src"; Requires := [InternalImageLink "root"];
                Creates := [InternalImageLink "src"] |} ] ["src"; "root"]).
  - repeat constructor; simpl; intuition discriminate.
  - intros x [<-|[<-|[]]]; eexists; split;
      [right; left; reflexivity|reflexivity|left; reflexivity|reflexivity].
Defined.

(** X12: the name scan only selects steps whose name was requested: a flag
    set by the scan belongs to a step whose [Name()] is among the
    requested names, and every requested name is either consumed by one
    selected step or left over. *)
Theorem seed_selects_named (steps : list Step) (names0 : list string) :
  (forall j, candidates (seed steps names0) !! j = Some true ->
     exists s, steps !! j = Some s /\ In (Name s) names0) /\
  marked (candidates (seed steps names0))
  + length (names (seed steps names0)) = length names0.
Proof.
  split; [|apply seed_marked]. unfold seed.
  pose proof (forRange_ind seedStep
    (fun _ st => length (candidates st) = length steps /\
                 (forall x, In x (names st) -> In x names0) /\
                 forall j, candidates st !! j = Some true ->
                   exists s, steps !! j = Some s /\ In (Name s) names0)
    steps 0 {| candidates := replicate (length steps) false;
               required := []; names := names0 |}) as H.
  destruct H as (_ & _ & H); [| |exact H].
  - simpl. split; [apply length_replicate|]. split; trivial.
    intros j Hj. apply lookup_replicate in Hj as [Hj _]. discriminate Hj.
  - intros k x st Hk (Hlen & Hsub & Hnamed). simpl. unfold seedStep.
    destruct (findName (Name x) (names st)) as [j'|] eqn:Hf; [|auto].
    simpl. split; [now rewrite length_insert|]. split.
    + intros y Hy. apply Hsub.
      apply list_elem_of_In. apply list_elem_of_In in Hy.
      eapply list_elem_of_delete_inv; eauto.
    + intros j Hj. destruct (decide (k = j)) as [<-|Hne].
      * exists x. split; trivial. apply Hsub. eapply findName_In; eauto.
      * rewrite list_lookup_insert_ne in Hj by trivial. auto.
Qed.

(** ** [findStatusTag], [resolvePullSpec] and the copy of the stable tags *)

Lemma length_pos_nonempty (x : string) :
  Nat.ltb 0 (String.length x) = negb (Nat.eqb (String.length x) 0).
Proof. now destruct x. Qed.

Lemma length_pos_iff (x : string) :
  Nat.ltb 0 (String.length x) = true <-> x <> ""%string.
Proof.
  destruct x; simpl; split; intros H; try discriminate; trivial.
  now destruct H.
Qed.

Lemma findStatusTagFrom_find istream tags tag :
  findStatusTagFrom istream tags tag
  = match List.find (fun t => String.eqb (EventTag t) tag) tags with
    | Some t => statusTagRef istream t
    | None => None
    end.
Proof.
  induction tags as [|t tags IH]; simpl; trivial.
  now destruct (String.eqb (EventTag t) tag).
Qed.

Lemma resolvePullSpecFrom_find istream tags tag :
  resolvePullSpecFrom istream tags tag
  = match List.find (fun t => String.eqb (EventTag t) tag) tags with
    | Some t =>
        match Items t with
        | item :: _ =>
            if Nat.ltb 0 (String.length (Image item))
            then if Nat.eqb (String.length (pullRepository istream)) 0
                 then None
                 else Some ((pullRepository istream ++ "@" ++ Image item)%string,
                            true)
            else None
        | [] => None
        end
    | None => None
    end.
Proof.
  induction tags as [|t tags IH]; simpl; trivial.
  destruct (String.eqb (EventTag t) tag); simpl; trivial.
  destruct (Items t) as [|item items]; trivial.
  destruct (Nat.ltb 0 (String.length (Image item))); trivial.
  unfold pullRepository.
  destruct (PublicDockerImageRepository istream) as [|c p]; simpl; trivial.
  now destruct (DockerImageRepository istream).
Qed.

Lemma findStatusTagFrom_skip istream before rest tag :
  (forall t, In t before -> EventTag t <> tag) ->
  findStatusTagFrom istream (before ++ rest) tag
  = findStatusTagFrom istream rest tag.
Proof.
  induction before as [|t before IH]; intros Hno; simpl; trivial.
  replace (String.eqb (EventTag t) tag) with false.
  - simpl. apply IH. intros t' Ht'. apply Hno. now right.
  - symmetry. apply String.eqb_neq. apply Hno. now left.
Qed.

(** X13: [findStatusTag] looks at the first entry of the status for the
    tag only.  It returns nil when the status has no entry for the tag.
    When [t] is the first entry for the tag, whatever follows it, the
    result is nil if [t] has no item; a reference of kind [DockerImage],
    with no namespace, to the pull spec [DockerImageReference] of the
    first item if that item has no image id; and else the reference of
    kind [ImageStreamImage] to [name@id] in the namespace of the stream,
    with the name of the stream and the image id of the first item. *)
Theorem findStatusTag_first_entry (istream : ImageStream) (tag : string) :
  ((forall t, In t (StatusTags istream) -> EventTag t <> tag) ->
   findStatusTag istream tag = None) /\
  (forall before t after,
     StatusTags istream = before ++ t :: after ->
     (forall t', In t' before -> EventTag t' <> tag) ->
     EventTag t = tag ->
     match Items t with
     | [] => findStatusTag istream tag = None
     | item :: _ =>
         (Image item = ""%string ->
          findStatusTag istream tag
          = Some {| Kind := "DockerImage"; RefNamespace := "";
                    RefName := DockerImageReference item |}) /\
         (Image item <> ""%string ->
          findStatusTag istream tag
          = Some {| Kind := "ImageStreamImage";
                    RefNamespace := StreamNamespace istream;
                    RefName := (StreamName istream ++ "@"
                                ++ Image item)%string |})
     end).
Proof.
  unfold findStatusTag. split.
  - intros Hno. rewrite <- (app_nil_r (StatusTags istream)).
    now rewrite findStatusTagFrom_skip.
  - intros before t after Hs Hbefore Ht. rewrite Hs.
    rewrite findStatusTagFrom_skip by trivial. simpl.
    apply String.eqb_eq in Ht. rewrite Ht. simpl. unfold statusTagRef.
    destruct (Items t) as [|item items]; trivial. split.
    + intros Himg. now rewrite Himg.
    + intros Himg. destruct (Image item); [congruence|reflexivity].
Qed.

Lemma findStatusTag_first_entry_witness :
  findStatusTag originStream "latest"
  = Some {| Kind := "ImageStreamImage"; RefNamespace := "openshift";
            RefName := "origin@sha256:0a" |}.
Proof.
  refine (proj2 (proj2 (findStatusTag_first_entry originStream "latest")
                   [ {| EventTag := "base"; Items := [] |} ]
                   {| EventTag := "latest";
                      Items := [ {| DockerImageReference :=
                                      "registry/origin@sha256:0a";
                                    Image := "sha256:0a" |} ] |}
                   [ {| EventTag := "latest"; Items := [] |} ]
                   eq_refl _ eq_refl) _).
  - intros t' [<-|[]]. discriminate.
  - discriminate.
Defined.

(** X14: [resolvePullSpec] fails (empty string, false) exactly when the
    stream has neither a public nor an internal repository, whatever the
    tag.  Otherwise it succeeds with the public repository if there is
    one, else the internal one, followed by [@id] when the first status
    entry for the tag has a first item with an image id, and by [:tag]
    when not. *)
Theorem resolvePullSpec_repository (istream : ImageStream) (tag : string) :
  resolvePullSpec istream tag
  = (if Nat.eqb (String.length (pullRepository istream)) 0
     then (""%string, false)
     else ((pullRepository istream ++
            match knownImage istream tag with
            | Some image => "@" ++ image
            | None => ":" ++ tag
            end)%string, true)) /\
  (snd (resolvePullSpec istream tag) = true <->
   PublicDockerImageRepository istream <> ""%string \/
   DockerImageRepository istream <> ""%string).
Proof.
  assert (Heq : resolvePullSpec istream tag
    = (if Nat.eqb (String.length (pullRepository istream)) 0
       then (""%string, false)
       else ((pullRepository istream ++
              match knownImage istream tag with
              | Some image => "@" ++ image
              | None => ":" ++ tag
              end)%string, true))).
  { unfold resolvePullSpec, knownImage, statusEntry.
    rewrite resolvePullSpecFrom_find.
    assert (Hfall :
      (if Nat.ltb 0 (String.length (PublicDockerImageRepository istream))
       then ((PublicDockerImageRepository istream ++ ":" ++ tag)%string, true)
       else if Nat.ltb 0 (String.length (DockerImageRepository istream))
       then ((DockerImageRepository istream ++ ":" ++ tag)%string, true)
       else (""%string, false))
      = (if Nat.eqb (String.length (pullRepository istream)) 0
         then (""%string, false)
         else ((pullRepository istream ++ ":" ++ tag)%string, true))).
    { unfold pullRepository.
      destruct (PublicDockerImageRepository istream); simpl; trivial.
      now destruct (DockerImageRepository istream). }
    destruct (List.find _ (StatusTags istream)) as [t|]; trivial.
    destruct (Items t) as [|item items]; trivial.
    destruct (Nat.ltb 0 (String.length (Image item))); trivial.
    now destruct (Nat.eqb (String.length (pullRepository istream)) 0). }
  split; trivial. rewrite Heq. unfold pullRepository.
  destruct (PublicDockerImageRepository istream) as [|c p]; simpl.
  - destruct (DockerImageRepository istream) as [|c d]; simpl.
    + split; [discriminate|]. intros [H|H]; congruence.
    + split; trivial. intros _. right. discriminate.
  - split; trivial. intros _. left. discriminate.
Qed.

Lemma copyStableTags_loop istream specs : forall acc,
  fold_left (fun tags tag =>
               match findStatusTag istream (TagName tag) with
               | Some valid =>
                   tags ++ [{| TagName := TagName tag; From := Some valid;
                            ReferencePolicy := "" |}]
               | None => tags
               end) specs acc
  = acc ++ flat_map (fun tag =>
                       match findStatusTag istream (TagName tag) with
                       | Some valid =>
                           [{| TagName := TagName tag; From := Some valid;
                            ReferencePolicy := "" |}]
                       | None => []
                       end) specs.
Proof.
  induction specs as [|tag specs IH]; intros acc; simpl.
  - now rewrite app_nil_r.
  - rewrite IH. destruct (findStatusTag istream (TagName tag)); trivial.
    now rewrite <- app_assoc.
Qed.

(** X15: the copy of the stable stream made by [Run].  A tag of the new
    stream always has a source, the one [findStatusTag] finds for its
    name, and the names of the new tags are the names of the tags of the
    spec for which [findStatusTag] finds one, in the same order: tags
    without a usable status are left out, and none is added. *)
Theorem copyStableTags_valid (istream : ImageStream) :
  (forall t, In t (copyStableTags istream) ->
     exists valid, From t = Some valid /\
                   findStatusTag istream (TagName t) = Some valid /\
                   In (TagName t) (map TagName (SpecTags istream))) /\
  map TagName (copyStableTags istream)
  = List.filter (fun n => match findStatusTag istream n with
                          | Some _ => true | None => false end)
                (map TagName (SpecTags istream)) /\
  length (copyStableTags istream) <= length (SpecTags istream).
Proof.
  unfold copyStableTags. rewrite copyStableTags_loop. simpl.
  induction (SpecTags istream) as [|tag specs (IH1 & IH2 & IH3)]; simpl.
  - repeat split; trivial. intros t [].
  - destruct (findStatusTag istream (TagName tag)) as [valid|] eqn:Hf; simpl.
    + split; [|split; [now rewrite IH2|lia]].
      intros t [<-|Ht]; simpl.
      * exists valid. auto.
      * destruct (IH1 t Ht) as (v & H1 & H2 & H3). exists v. auto.
    + split; [|split; [trivial|lia]].
      intros t Ht. destruct (IH1 t Ht) as (v & H1 & H2 & H3). exists v. auto.
Qed.

(** ** The image that backs a tag in [Run] *)

Lemma backingImageFrom_panic tags targetTag : forall id,
  backingImageFrom tags targetTag id = None <->
  exists t, In t tags /\ EventTag t = targetTag /\ Items t = [].
Proof.
  induction tags as [|t tags IH]; intros id; simpl.
  - split; [discriminate|intros (t & [] & _)].
  - destruct (String.eqb (EventTag t) targetTag) eqn:E.
    + apply String.eqb_eq in E.
      destruct (Items t) as [|item items] eqn:Hi.
      * split; trivial. intros _. exists t. auto.
      * rewrite IH. split.
        -- intros (t' & Hin & H). exists t'. auto.
        -- intros (t' & [<-|Hin] & Ht & Hit); [congruence|eauto].
    + apply String.eqb_neq in E. rewrite IH. split.
      * intros (t' & Hin & H). exists t'. auto.
      * intros (t' & [<-|Hin] & Ht & Hit); [congruence|eauto].
Qed.

Lemma backingImageFrom_app tags item items t targetTag : forall id,
  EventTag t = targetTag -> Items t = item :: items ->
  backingImageFrom (tags ++ [t]) targetTag id
  = match backingImageFrom tags targetTag id with
    | Some _ => Some (Image item)
    | None => None
    end.
Proof.
  intros id Ht Hi. revert id.
  induction tags as [|t' tags IH]; intros id; simpl.
  - apply String.eqb_eq in Ht. now rewrite Ht, Hi.
  - destruct (String.eqb (EventTag t') targetTag); [|apply IH].
    destruct (Items t'); [trivial|apply IH].
Qed.

Lemma backingImageFrom_none tags targetTag : forall id,
  (forall t, In t tags -> EventTag t <> targetTag) ->
  backingImageFrom tags targetTag id = Some id.
Proof.
  induction tags as [|t tags IH]; intros id Hno; simpl; trivial.
  replace (String.eqb (EventTag t) targetTag) with false.
  - apply IH. intros t' Ht'. apply Hno. now right.
  - symmetry. apply String.eqb_neq. apply Hno. now left.
Qed.

Lemma backingImageFrom_skip tags more targetTag : forall id,
  (forall t, In t more -> EventTag t <> targetTag) ->
  backingImageFrom (tags ++ more) targetTag id
  = backingImageFrom tags targetTag id.
Proof.
  intros id Hno. revert id.
  induction tags as [|t tags IH]; intros id; simpl.
  - now apply backingImageFrom_none.
  - destruct (String.eqb (EventTag t) targetTag); [|apply IH].
    destruct (Items t); [trivial|apply IH].
Qed.

(** X16: the scan in [Run] for the image that backs the target tag reads
    [Items[0]] of every status entry of the tag without a test of the
    length.  It panics exactly when some entry of the tag, the first or a
    later one, has no items, where [findStatusTag] returns nil.  Without
    an entry of the tag there is no panic and [Run] returns the error [no
    image found backing ...]; and when no entry of the tag is empty, the
    image is that of the last entry of the tag, not of the first. *)
Theorem backingImage_unchecked_index (stableImageStream : ImageStream)
    (targetTag : string) :
  (backingImage stableImageStream targetTag = BackingPanic <->
   exists t, In t (StatusTags stableImageStream) /\
             EventTag t = targetTag /\ Items t = []) /\
  ((forall t, In t (StatusTags stableImageStream) ->
      EventTag t <> targetTag) ->
   backingImage stableImageStream targetTag
   = BackingError ("no image found backing "
                   ++ StreamNamespace stableImageStream ++ "/"
                   ++ StreamName stableImageStream ++ ":" ++ targetTag)) /\
  (forall before t item items after,
     StatusTags stableImageStream = before ++ t :: after ->
     EventTag t = targetTag -> Items t = item :: items ->
     (forall t', In t' after -> EventTag t' <> targetTag) ->
     (forall t', In t' before -> EventTag t' = targetTag -> Items t' <> []) ->
     Image item <> ""%string ->
     backingImage stableImageStream targetTag = BackingImage (Image item)).
Proof.
  unfold backingImage. split; [|split].
  - rewrite <- (backingImageFrom_panic _ _ ""%string).
    destruct (backingImageFrom _ _ _) as [id|]; [|tauto].
    split; [|discriminate]. now destruct (Nat.eqb _ _).
  - intros Hno. now rewrite backingImageFrom_none.
  - intros before t item items after Hs Ht Hi Hafter Hbefore Himg.
    rewrite Hs. change (t :: after) with ([t] ++ after).
    rewrite app_assoc, (backingImageFrom_skip _ _ _ _ Hafter).
    rewrite (backingImageFrom_app _ _ _ _ _ _ Ht Hi).
    destruct (backingImageFrom before targetTag "") as [id|] eqn:Hb.
    + destruct (Image item); [congruence|reflexivity].
    + apply backingImageFrom_panic in Hb as (t' & Hin & Ht' & Hit').
      now destruct (Hbefore t' Hin Ht').
Qed.

(** ** [componentToParamName] on ASCII names *)

Lemma mapBytes_mapBytes f g s :
  mapBytes f (mapBytes g s) = mapBytes (fun c => f (g c)) s.
Proof. induction s as [|c s IH]; simpl; now rewrite ?IH. Qed.

Lemma mapBytes_ext f g s :
  (forall c, f c = g c) -> mapBytes f s = mapBytes g s.
Proof. intros H. induction s as [|c s IH]; simpl; now rewrite ?IH, ?H. Qed.

Lemma mapBytes_length f s : String.length (mapBytes f s) = String.length s.
Proof. induction s as [|c s IH]; simpl; now rewrite ?IH. Qed.

Lemma allBytes_mapBytes (P Q : ascii -> bool) f s :
  (forall c, Q c = true -> P (f c) = true) ->
  allBytes Q s = true -> allBytes P (mapBytes f s) = true.
Proof.
  intros H. induction s as [|c s IH]; simpl; trivial.
  intros [Hc Hs]%andb_true_iff. now rewrite (H c Hc), IH.
Qed.

Ltac each_byte c :=
  destruct c as [[] [] [] [] [] [] [] []]; vm_compute; trivial;
  try discriminate.

Lemma paramByte_clean c :
  isASCII c = true ->
  (let c' := (fun c => if isLower c then ascii_of_nat (nat_of_ascii c - 32)
                       else c)
               (if Ascii.eqb c "-" then "_"%char else c) in
   isASCII c' && negb (isLower c') && negb (Ascii.eqb c' "-")) = true.
Proof. each_byte c. Qed.

Lemma paramByte_idem c :
  let h := fun c =>
    (fun c => if isLower c then ascii_of_nat (nat_of_ascii c - 32) else c)
      (if Ascii.eqb c "-" then "_"%char else c) in
  h (h c) = h c /\
  h (if Ascii.eqb c "-" then "_"%char else c) = h c /\
  h (if isLower c then ascii_of_nat (nat_of_ascii c - 32) else c) = h c.
Proof. each_byte c; repeat split. Qed.

Lemma paramByte_name c :
  isLower c || isDigit c || Ascii.eqb c "-" = true ->
  (let c' := (fun c => if isLower c then ascii_of_nat (nat_of_ascii c - 32)
                       else c)
               (if Ascii.eqb c "-" then "_"%char else c) in
   isUpper c' || isDigit c' || Ascii.eqb c' "_") = true.
Proof. each_byte c. Qed.

Lemma paramByte_cases c :
  (fun c => if isLower c then ascii_of_nat (nat_of_ascii c - 32) else c)
    (if Ascii.eqb c "-" then "_"%char else c)
  = (if Ascii.eqb c "-" then "_"%char
     else if isLower c then ascii_of_nat (nat_of_ascii c - 32) else c).
Proof. each_byte c. Qed.

Lemma asciiByte_kept c :
  isASCII (if Ascii.eqb c "-" then "_"%char else c) = isASCII c /\
  isASCII (if isLower c then ascii_of_nat (nat_of_ascii c - 32) else c)
  = isASCII c.
Proof. each_byte c; split; reflexivity. Qed.

Lemma allBytes_mapBytes_eq (P : ascii -> bool) f s :
  (forall c, P (f c) = P c) -> allBytes P (mapBytes f s) = allBytes P s.
Proof. intros H. induction s as [|c s IH]; simpl; now rewrite ?H, ?IH. Qed.

Lemma get_mapBytes f s : forall i,
  String.get i (mapBytes f s) = option_map f (String.get i s).
Proof.
  induction s as [|c s IH]; intros i; simpl; trivial.
  destruct i; simpl; trivial.
Qed.

Lemma replaceDashes_ascii s :
  allBytes isASCII (replaceDashes s) = allBytes isASCII s.
Proof. apply allBytes_mapBytes_eq. intros c. apply asciiByte_kept. Qed.

Lemma toUpperASCII_ascii s :
  allBytes isASCII (toUpperASCII s) = allBytes isASCII s.
Proof. apply allBytes_mapBytes_eq. intros c. apply asciiByte_kept. Qed.

Lemma componentToParamName_bytes mapRunes component :
  allBytes isASCII component = true ->
  componentToParamName mapRunes component
  = toUpperASCII (replaceDashes component).
Proof.
  intros H. unfold componentToParamName, ToUpper.
  now rewrite replaceDashes_ascii, H.
Qed.

(** X17: [componentToParamName] on an ASCII component name, whatever the
    library does on other strings.  The result has the length of the
    component, and byte for byte: a dash gives an underscore, a lower-case
    letter gives the letter 32 below it, the upper-case one, and any other
    byte gives itself.  So the result is ASCII and has no lower-case
    letter and no dash, and a component of lower-case letters, digits and
    dashes gives a name of upper-case letters, digits and underscores.
    The function is idempotent, and it does not tell a dash from an
    underscore nor a lower-case letter from the upper-case one: two such
    components get the same parameter name. *)
Theorem componentToParamName_ascii (mapRunes : string -> string)
    (component : string) :
  allBytes isASCII component = true ->
  String.length (componentToParamName mapRunes component)
  = String.length component /\
  (forall i c, String.get i component = Some c ->
     String.get i (componentToParamName mapRunes component)
     = Some (if Ascii.eqb c "-" then "_"%char
             else if isLower c then ascii_of_nat (nat_of_ascii c - 32)
             else c)) /\
  allBytes (fun c => isASCII c && negb (isLower c) && negb (Ascii.eqb c "-"))
           (componentToParamName mapRunes component) = true /\
  (allBytes (fun c => isLower c || isDigit c || Ascii.eqb c "-") component
   = true ->
   allBytes (fun c => isUpper c || isDigit c || Ascii.eqb c "_")
            (componentToParamName mapRunes component) = true) /\
  componentToParamName mapRunes (componentToParamName mapRunes component)
  = componentToParamName mapRunes component /\
  componentToParamName mapRunes (replaceDashes component)
  = componentToParamName mapRunes component /\
  componentToParamName mapRunes (toUpperASCII component)
  = componentToParamName mapRunes component.
Proof.
  intros Hascii.
  assert (Hres : allBytes isASCII (toUpperASCII (replaceDashes component))
                 = true)
    by now rewrite toUpperASCII_ascii, replaceDashes_ascii.
  rewrite (componentToParamName_bytes mapRunes component Hascii).
  rewrite (componentToParamName_bytes mapRunes _ Hres).
  rewrite (componentToParamName_bytes mapRunes (replaceDashes component))
    by now rewrite replaceDashes_ascii.
  rewrite (componentToParamName_bytes mapRunes (toUpperASCII component))
    by now rewrite toUpperASCII_ascii.
  unfold toUpperASCII, replaceDashes. rewrite !mapBytes_mapBytes.
  split; [apply mapBytes_length|].
  split; [|split; [|split; [|split; [|split]]]].
  - intros i c Hi. rewrite get_mapBytes, Hi. simpl. f_equal.
    apply paramByte_cases.
  - apply (allBytes_mapBytes _ isASCII); trivial. apply paramByte_clean.
  - apply allBytes_mapBytes. apply paramByte_name.
  - apply mapBytes_ext. intros c. apply (paramByte_idem c).
  - apply mapBytes_ext. intros c. apply (paramByte_idem c).
  - apply mapBytes_ext. intros c. apply (paramByte_idem c).
Qed.

Lemma componentToParamName_ascii_witness :
  String.get 6 (componentToParamName (fun s => s) "origin-v3.10")
  = Some "_"%char.
Proof.
  refine (proj1 (proj2 (componentToParamName_ascii (fun s => s)
                          "origin-v3.10" eq_refl)) 6 "-"%char eq_refl).
Defined.

(** ** The methods of [inputImageTagStep] *)

Lemma creates_app es es' :
  InputImageTag.creates (es ++ es')
  = InputImageTag.creates es ++ InputImageTag.creates es'.
Proof. apply List.flat_map_app. Qed.

Lemma Inputs_inv {World} (env : Env World) dry st r st' :
  InputImageTag.Inputs env dry st = (r, st') ->
  InputImageTag.BaseImage (InputImageTag.self st')
  = InputImageTag.BaseImage (InputImageTag.self st) /\
  InputImageTag.To (InputImageTag.self st')
  = InputImageTag.To (InputImageTag.self st) /\
  InputImageTag.JobNamespace (InputImageTag.self st')
  = InputImageTag.JobNamespace (InputImageTag.self st) /\
  InputImageTag.creates (InputImageTag.events st')
  = InputImageTag.creates (InputImageTag.events st) /\
  (forall def, r = inl def ->
     def = [InputImageTag.imageName (InputImageTag.self st')]).
Proof.
  unfold InputImageTag.Inputs.
  destruct (Nat.ltb 0 (String.length
              (InputImageTag.imageName (InputImageTag.self st)))).
  - intros [= <- <-]. repeat split. now intros def [= <-].
  - destruct (getImageStreamTag env _ _ _) as [[from|err] w];
      intros [= <- <-]; simpl; rewrite ?creates_app; simpl;
      rewrite ?app_nil_r; repeat split; trivial.
    + now intros def [= <-].
    + intros def Hdef. discriminate Hdef.
Qed.

(** X18: [Inputs] memoizes.  A call that succeeds returns the one name it
    has stored in [imageName]; when that name is not empty, every later
    call, dry or not and whatever the state of the cluster, returns the
    same answer without a call of the client and without a line of log.
    [Inputs] changes nothing else of the step and never calls [Create]. *)
Theorem Inputs_memoized {World : Type} (env : Env World) (dry : bool)
    (st st' : InputImageTag.state World) (def : list string) :
  InputImageTag.Inputs env dry st = (inl def, st') ->
  def = [InputImageTag.imageName (InputImageTag.self st')] /\
  InputImageTag.BaseImage (InputImageTag.self st')
  = InputImageTag.BaseImage (InputImageTag.self st) /\
  InputImageTag.To (InputImageTag.self st')
  = InputImageTag.To (InputImageTag.self st) /\
  InputImageTag.JobNamespace (InputImageTag.self st')
  = InputImageTag.JobNamespace (InputImageTag.self st) /\
  InputImageTag.creates (InputImageTag.events st')
  = InputImageTag.creates (InputImageTag.events st) /\
  (InputImageTag.imageName (InputImageTag.self st') <> ""%string ->
   forall dry' w es,
     InputImageTag.Inputs env dry'
       {| InputImageTag.self := InputImageTag.self st';
          InputImageTag.world := w; InputImageTag.events := es |}
     = (inl def, {| InputImageTag.self := InputImageTag.self st';
                    InputImageTag.world := w;
                    InputImageTag.events := es |})).
Proof.
  intros H. destruct (Inputs_inv _ _ _ _ _ H) as (Hb & Ht & Hj & Hc & Hd).
  pose proof (Hd def eq_refl) as ->. repeat split; trivial.
  intros Hne dry' w es. unfold InputImageTag.Inputs. simpl.
  now rewrite (proj2 (length_pos_iff _) Hne).
Qed.

Lemma Inputs_memoized_witness :
  InputImageTag.Inputs InputImageTag.listCluster true
    {| InputImageTag.self :=
         {| InputImageTag.BaseImage :=
              {| ImageStreamTagReference.Namespace := "openshift";
                 ImageStreamTagReference.Name := "origin-v3.10";
                 ImageStreamTagReference.Tag := "base" |};
            InputImageTag.To := "base";
            InputImageTag.JobNamespace := "ci-op";
            InputImageTag.imageName := "sha256:0a" |};
       InputImageTag.world := [];
       InputImageTag.events := [] |}
  = (inl ["sha256:0a"%string],
     {| InputImageTag.self :=
          {| InputImageTag.BaseImage :=
               {| ImageStreamTagReference.Namespace := "openshift";
                  ImageStreamTagReference.Name := "origin-v3.10";
                  ImageStreamTagReference.Tag := "base" |};
             InputImageTag.To := "base";
             InputImageTag.JobNamespace := "ci-op";
             InputImageTag.imageName := "sha256:0a" |};
        InputImageTag.world := [];
        InputImageTag.events := [] |}).
Proof.
  refine (proj2 (proj2 (proj2 (proj2 (proj2
    (Inputs_memoized InputImageTag.listCluster false
       {| InputImageTag.self :=
            {| InputImageTag.BaseImage :=
                 {| ImageStreamTagReference.Namespace := "openshift";
                    ImageStreamTagReference.Name := "origin-v3.10";
                    ImageStreamTagReference.Tag := "base" |};
               InputImageTag.To := "base";
               InputImageTag.JobNamespace := "ci-op";
               InputImageTag.imageName := "sha256:0a" |};
          InputImageTag.world := [];
          InputImageTag.events := [] |} _ _ eq_refl))))) _ true [] []).
  discriminate.
Defined.




Lemma listCluster_keepsCreated :
  InputImageTag.keepsCreated InputImageTag.listCluster.
Proof.
  intros ns ist w _. simpl.
  destruct (List.find _ w) as [e|] eqn:Hf; simpl.
  - rewrite Hf. eauto.
  - rewrite !String.eqb_refl. simpl. eauto.
Qed.

(** X20: [Run] and [Done] agree on the object.  On a cluster that keeps
    what is created in it, after a [Run] that is not dry and returns no
    error, [Done] answers true with no error: it looks for the tag that
    [Run] created, under the same name and in the same namespace. *)
Theorem Run_then_Done {World : Type} (env : Env World)
    (st st' : InputImageTag.state World) :
  InputImageTag.keepsCreated env ->
  InputImageTag.Run env false st = (None, st') ->
  fst (InputImageTag.Done env st') = (true, None).
Proof.
  intros Hkeep. unfold InputImageTag.Run.
  destruct (InputImageTag.Inputs env false _) as [[def|e] st1];
    [|discriminate].
  pose proof (Hkeep (InputImageTag.JobNamespace (InputImageTag.self st1))
                    (InputImageTag.pipelineTag env (InputImageTag.self st1))
                    (InputImageTag.world st1)) as Hget.
  simpl in *.
  destruct (createImageStreamTag env _ _ _) as [res2 w]. simpl in Hget.
  assert (Hok : match res2 with
                | inl _ => True
                | inr err => IsAlreadyExists err = true
                end ->
                (None, {| InputImageTag.self := InputImageTag.self st1;
                          InputImageTag.world := w;
                          InputImageTag.events :=
                            InputImageTag.events st1 ++
                            [CalledCreate
                               (InputImageTag.JobNamespace
                                  (InputImageTag.self st1))
                               (InputImageTag.pipelineTag env
                                  (InputImageTag.self st1))] |})
                = (@None GoError, st') ->
                fst (InputImageTag.Done env st') = (true, None)).
  { intros Hres [= <-]. destruct (Hget Hres) as [found Hfound].
    unfold InputImageTag.Done. simpl.
    destruct (getImageStreamTag env _ _ w) as [r w']. simpl in Hfound.
    now subst r. }
  destruct res2 as [created|e]; [now apply Hok|].
  destruct (IsAlreadyExists e) eqn:Hae; simpl; [now apply Hok|discriminate].
Qed.

Lemma Run_then_Done_witness :
  fst (InputImageTag.Done InputImageTag.listCluster
         (snd (InputImageTag.Run InputImageTag.listCluster false
                 InputImageTag.exampleState)))
  = (true, None).
Proof.
  apply (Run_then_Done InputImageTag.listCluster InputImageTag.exampleState).
  - exact listCluster_keepsCreated.
  - reflexivity.
Defined.

(** ** [createReleaseConfigMap] *)

Lemma configMapsCreated_app es es' :
  ReleaseImagesTag.configMapsCreated (es ++ es')
  = ReleaseImagesTag.configMapsCreated es
    ++ ReleaseImagesTag.configMapsCreated es'.
Proof. apply List.flat_map_app. Qed.

Lemma writeConfigMap_created {World} (env : ReleaseEnv World) dry
    imageBase rpmRepo st err st' :
  ReleaseImagesTag.writeConfigMap env dry imageBase rpmRepo st = (err, st') ->
  ReleaseImagesTag.configMapsCreated (ReleaseImagesTag.events st')
  = ReleaseImagesTag.configMapsCreated (ReleaseImagesTag.events st)
    ++ (if dry then []
        else [(ReleaseImagesTag.JobNamespace st, ConfigMapName,
               <["image-base"%string := imageBase]>
                 (<["rpm-repo"%string := rpmRepo]> ∅))]) /\
  (dry = true ->
   ReleaseImagesTag.world st' = ReleaseImagesTag.world st /\
   ReleaseImagesTag.clientCalls (ReleaseImagesTag.events st')
   = ReleaseImagesTag.clientCalls (ReleaseImagesTag.events st)).
Proof.
  unfold ReleaseImagesTag.writeConfigMap. destruct dry.
  - destruct (marshalConfigMap env _); intros [= <- <-]; simpl;
      rewrite ?configMapsCreated_app; simpl; rewrite ?app_nil_r;
      unfold ReleaseImagesTag.clientCalls; rewrite ?List.filter_app; simpl;
      rewrite ?app_nil_r; auto.
  - destruct (createConfigMap env _ _ _) as [[cm|e] w];
      [|destruct (negb (IsAlreadyExists e))]; intros [= <- <-]; simpl;
      rewrite configMapsCreated_app; simpl; split; trivial; discriminate.
Qed.

(** X21: what [createReleaseConfigMap] creates.  In a dry run it calls no
    client.  Otherwise it creates at most the one config map [release] in
    the namespace of the job, and only on this path: the [origin] image
    stream of the job has a public repository, the route of the RPM
    repository is not found in the namespace of the job, and it is found
    in the configured namespace; the data are then that repository and the
    host of that route.  When the route exists in the namespace of the
    job the method returns nil at once and creates nothing: the test
    [!errors.IsNotFound(err)] also holds for the nil error. *)
Theorem createReleaseConfigMap_created {World : Type} (env : ReleaseEnv World)
    (dry : bool) (st st' : ReleaseImagesTag.state World)
    (err : option GoError) :
  ReleaseImagesTag.createReleaseConfigMap env dry st = (err, st') ->
  (dry = true ->
   ReleaseImagesTag.world st' = ReleaseImagesTag.world st /\
   ReleaseImagesTag.clientCalls (ReleaseImagesTag.events st')
   = ReleaseImagesTag.clientCalls (ReleaseImagesTag.events st)) /\
  (exists new,
     ReleaseImagesTag.configMapsCreated (ReleaseImagesTag.events st')
     = ReleaseImagesTag.configMapsCreated (ReleaseImagesTag.events st) ++ new /\
     (new = [] \/
      dry = false /\
      exists origin w1 e w2 host w3,
        getImageStream env (ReleaseImagesTag.JobNamespace st) "origin"
                       (ReleaseImagesTag.world st) = (inl origin, w1) /\
        PublicDockerImageRepository origin <> ""%string /\
        getRouteHost env (ReleaseImagesTag.JobNamespace st) (RPMRepoName env)
                     w1 = (inr e, w2) /\
        IsNotFound e = true /\
        getRouteHost env (ReleaseImagesTag.ConfigNamespace st)
                     (RPMRepoName env) w2 = (inl host, w3) /\
        new = [(ReleaseImagesTag.JobNamespace st, "release"%string,
                <["image-base"%string := PublicDockerImageRepository origin]>
                  (<["rpm-repo"%string := host]> ∅))])) /\
  (forall origin w1 host w2,
     dry = false ->
     getImageStream env (ReleaseImagesTag.JobNamespace st) "origin"
                    (ReleaseImagesTag.world st) = (inl origin, w1) ->
     PublicDockerImageRepository origin <> ""%string ->
     getRouteHost env (ReleaseImagesTag.JobNamespace st) (RPMRepoName env) w1
     = (inl host, w2) ->
     err = None /\
     ReleaseImagesTag.world st' = w2 /\
     ReleaseImagesTag.configMapsCreated (ReleaseImagesTag.events st')
     = ReleaseImagesTag.configMapsCreated (ReleaseImagesTag.events st)).
Proof.
  intros H. split; [|split].
  - intros ->.
    exact (proj2 (writeConfigMap_created env true "dry-fake"%string
                    "dry-fake"%string st err st' H) eq_refl).
  - revert H. unfold ReleaseImagesTag.createReleaseConfigMap.
    destruct dry; cbn -[ReleaseImagesTag.writeConfigMap].
    + intros H. exists []. split; [|now left].
      apply (writeConfigMap_created _ _ _ _ _ _ _ H).
    + destruct (getImageStream env _ _ _) as [[origin|e0] w1] eqn:Hget.
      2: { intros [= <- <-]. exists []. simpl.
           rewrite configMapsCreated_app. auto. }
      destruct (Nat.eqb _ 0) eqn:Hpub.
      { intros [= <- <-]. exists []. simpl.
        rewrite configMapsCreated_app. auto. }
      destruct (getRouteHost env (ReleaseImagesTag.JobNamespace st) _ _)
        as [[host|e] w2] eqn:Hr1; cbn -[ReleaseImagesTag.writeConfigMap].
      { intros [= <- <-]. exists []. simpl.
        rewrite !configMapsCreated_app. simpl. rewrite !app_nil_r. auto. }
      destruct (IsNotFound e) eqn:Hnf; cbn -[ReleaseImagesTag.writeConfigMap].
      2: { intros [= <- <-]. exists []. simpl.
           rewrite !configMapsCreated_app. simpl. rewrite !app_nil_r. auto. }
      destruct (getRouteHost env (ReleaseImagesTag.ConfigNamespace st) _ _)
        as [[host|e3] w3] eqn:Hr2.
      2: { intros [= <- <-]. exists []. simpl.
           rewrite !configMapsCreated_app. simpl. rewrite !app_nil_r. auto. }
      intros H. apply writeConfigMap_created in H as [H _]. simpl in H.
      rewrite !configMapsCreated_app in H. simpl in H.
      rewrite !app_nil_r in H.
      eexists. split; [exact H|]. right. split; trivial.
      exists origin, w1, e, w2, host, w3. repeat split; trivial.
      intros Hempty. rewrite Hempty in Hpub. discriminate Hpub.
  - intros origin w1 host w2 -> Hget Hpub Hr1. revert H.
    unfold ReleaseImagesTag.createReleaseConfigMap.
    cbn -[ReleaseImagesTag.writeConfigMap]. rewrite Hget.
    replace (Nat.eqb (String.length (PublicDockerImageRepository origin)) 0)
      with false by (now destruct (PublicDockerImageRepository origin)).
    cbn -[ReleaseImagesTag.writeConfigMap]. rewrite Hr1.
    cbn -[ReleaseImagesTag.writeConfigMap]. intros [= <- <-]. simpl.
    rewrite !configMapsCreated_app. simpl. now rewrite !app_nil_r.
Qed.

Lemma createReleaseConfigMap_created_witness :
  ReleaseImagesTag.configMapsCreated
    (ReleaseImagesTag.events
       (snd (ReleaseImagesTag.createReleaseConfigMap
               ReleaseImagesTag.exampleEnv false
               ReleaseImagesTag.exampleState)))
  = [].
Proof.
  refine (proj2 (proj2 (proj2 (proj2
    (createReleaseConfigMap_created ReleaseImagesTag.exampleEnv false
       ReleaseImagesTag.exampleState _ _ (surjective_pairing _)))
    _ tt "rpms.ci"%string tt eq_refl eq_refl _ eq_refl))).
  discriminate.
Defined.

(** ** Inputs without a cycle *)

(** X22: on an input without a dependency cycle [BuildGraph] does return
    every step.  When the steps can be ranked so that a step that creates
    a link matching a link another step requires always has the smaller
    rank, every node is in the returned forest, and the roots are not
    empty unless the input is. *)
Theorem BuildGraph_acyclic_complete (steps : list Step) (rank : nat -> nat) :
  (forall p n, p < length steps -> n < length steps ->
     feeds steps p n = true -> rank p < rank n) ->
  (forall n, n < length steps -> inForest (BuildGraph steps) n) /\
  (steps <> [] -> Roots (BuildGraph steps) <> []).
Proof.
  intros Hrank.
  pose proof (BuildGraph_acyclic_inForest steps rank Hrank) as Hall.
  split; trivial.
  intros Hne Hnil. destruct steps as [|s steps]; [congruence|].
  assert (H0 : inForest (BuildGraph (s :: steps)) 0)
    by (apply Hall; simpl; lia).
  now apply (inForest_no_roots _ _ Hnil) in H0.
Qed.

Lemma BuildGraph_acyclic_complete_witness :
  inForest (BuildGraph [ {| Name := "root"; Requires := [];
                            Creates := [InternalImageLink "root"] |};
                         {| Name := "src";
                            Requires := [InternalImageLink "root"];
                            Creates := [InternalImageLink "src"] |} ]) 1.
Proof.
  refine (proj1 (BuildGraph_acyclic_complete _ (fun n => n) _) 1 _).
  - intros [|[|p]] [|[|n]] Hp Hn Hf; simpl in *; try lia; discriminate Hf.
  - simpl. lia.
Defined.

(** ** The named steps are in the partial graph *)

Lemma findName_lookup nm ns j : findName nm ns = Some j -> ns !! j = Some nm.
Proof.
  revert j. induction ns as [|n ns IH]; intros j; simpl; [discriminate|].
  destruct (String.eqb n nm) eqn:E; simpl.
  - apply String.eqb_eq in E. now intros [= <-]; subst.
  - destruct (findName nm ns) as [j'|]; [|discriminate].
    intros [= <-]. simpl. now apply IH.
Qed.

Lemma In_delete_or {A} (x : A) (l : list A) : forall j,
  In x l -> In x (delete j l) \/ l !! j = Some x.
Proof.
  induction l as [|a l IH]; intros j Hx; [destruct Hx|].
  destruct j as [|j]; simpl.
  - destruct Hx as [->|Hx]; auto.
  - destruct Hx as [->|Hx]; [left; now left|].
    destruct (IH j Hx) as [H|H]; [left; now right|now right].
Qed.

Lemma seed_named_flag steps names0 x :
  In x names0 ->
  In x (names (seed steps names0)) \/
  exists j s, candidates (seed steps names0) !! j = Some true /\
              steps !! j = Some s /\ Name s = x.
Proof.
  intros Hx. unfold seed.
  pose proof (forRange_ind seedStep
    (fun _ st => length (candidates st) = length steps /\
                 (In x (names st) \/
                  exists j s, candidates st !! j = Some true /\
                              steps !! j = Some s /\ Name s = x))
    steps 0 {| candidates := replicate (length steps) false;
               required := []; names := names0 |}) as H.
  destruct H as [_ H]; [| |exact H].
  - simpl. split; [apply length_replicate|now left].
  - intros k s st Hk [Hlen Hinv]. simpl. unfold seedStep.
    destruct (findName (Name s) (names st)) as [j'|] eqn:Hf; [|auto].
    simpl. split; [now rewrite length_insert|].
    assert (Hkk : <[k := true]> (candidates st) !! k = Some true).
    { apply list_lookup_insert_eq. rewrite Hlen.
      eapply lookup_lt_Some; eauto. }
    destruct Hinv as [Hin|(j & s' & Hj & Hs' & Hn)].
    + destruct (In_delete_or x (names st) j' Hin) as [H|H]; [now left|].
      right. exists k, s. repeat split; trivial.
      apply findName_lookup in Hf. congruence.
    + right. exists j, s'. repeat split; trivial.
      destruct (decide (k = j)) as [<-|Hne]; trivial.
      now rewrite list_lookup_insert_ne.
Qed.

(** X23: the named steps are selected, and returned when there is no
    cycle.  When [BuildPartialGraph] returns a graph for requested names,
    every requested name is the [Name()] of a step whose flag is set when
    the closure loop ends, one of the steps the graph is built from; and
    when these steps have no dependency cycle, a node of the returned
    forest holds that step. *)
Theorem BuildPartialGraph_has_named (steps : list Step)
    (names0 : list string) (g : Graph) (x : string) :
  BuildPartialGraph steps names0 = Some (inl g) -> In x names0 ->
  exists sel' j s,
    closeLoop (length steps) steps (seed steps names0) = Some sel' /\
    candidates sel' !! j = Some true /\
    steps !! j = Some s /\ Name s = x /\
    forall rank : nat -> nat,
      (forall p n,
         p < length (map fst (List.filter snd
                                (combine steps (candidates sel')))) ->
         n < length (map fst (List.filter snd
                                (combine steps (candidates sel')))) ->
         feeds (map fst (List.filter snd (combine steps (candidates sel'))))
               p n = true ->
         rank p < rank n) ->
      exists k nd, inForest g k /\ Nodes g !! k = Some nd /\
                   NodeStep nd = s.
Proof.
  intros H Hx.
  assert (Hne : names0 <> []) by (intros ->; destruct Hx).
  destruct (BuildPartialGraph_inl _ _ _ Hne H) as (Hnil & sel' & Hsel' & ->).
  destruct (seed_named_flag steps names0 x Hx) as [Hin|(j & s & Hj & Hs & Hn)].
  { rewrite Hnil in Hin. destruct Hin. }
  destruct (closeLoop_closing _ _ _ _ _ (closing_seed steps names0) Hsel')
    as [(_ & Hmono & _) _].
  exists sel', j, s. repeat split; auto.
  rewrite <- targetedSteps_filter. intros rank Hrank.
  apply (targetedSteps_returned steps (candidates sel') rank s Hrank).
  apply In_targetedSteps. eauto.
Qed.

Lemma BuildPartialGraph_has_named_witness :
  exists k nd,
    inForest srcTestGraph k /\ Nodes srcTestGraph !! k = Some nd /\
    Name (NodeStep nd) = "test"%string.
Proof.
  destruct (BuildPartialGraph_has_named srcBinTest ["test"] srcTestGraph
              "test"%string) as (sel' & j & s & Hsel' & _ & _ & Hn & Hret).
  - reflexivity.
  - simpl. auto.
  - vm_compute in Hsel'. injection Hsel' as <-.
    destruct (Hret (fun n => n)) as (k & nd & Hk & Hnd & Hs).
    + intros [|[|p]] [|[|n]] Hp Hq Hf; simpl in *; try lia; discriminate Hf.
    + exists k, nd. repeat split; trivial. congruence.
Defined.

(** ** All the names, and links that match *)

Lemma stepsNamed_count x steps :
  stepsNamed x steps = count_occ string_dec (map Name steps) x.
Proof.
  unfold stepsNamed. induction steps as [|a steps IH]; simpl; trivial.
  destruct (string_dec (Name a) x) as [->|Hne].
  - rewrite String.eqb_refl. simpl. now rewrite IH.
  - apply String.eqb_neq in Hne. now rewrite Hne.
Qed.

Lemma marked_full (steps : list Step) : forall cands : list bool,
  length cands = length steps -> marked cands = length cands ->
  map fst (List.filter snd (combine steps cands)) = steps /\
  forall i c, cands !! i = Some c -> c = true.
Proof.
  unfold marked.
  induction steps as [|s steps IH]; intros [|c cands] Hlen Hm;
    simpl in *; try discriminate.
  - split; trivial. intros i c H. discriminate H.
  - pose proof (List.filter_length_le (fun c : bool => c) cands) as Hle.
    destruct c; simpl in Hm; [|lia].
    destruct (IH cands) as [Hpick Hall]; [lia|lia|]. simpl.
    rewrite Hpick. split; trivial.
    intros [|i] c Hc; simpl in Hc; [congruence|eauto].
Qed.

Lemma closePass_all_flagged steps sel :
  length (candidates sel) = length steps ->
  (forall i c, candidates sel !! i = Some c -> c = true) ->
  closePass steps sel = (sel, 0).
Proof.
  intros Hlen Hall. unfold closePass.
  apply (forRange_ind closeStep (fun _ st => st = (sel, 0)) steps 0 (sel, 0)
           eq_refl).
  intros k x st Hk ->. unfold closeStep.
  destruct (lookup_lt_is_Some_2 (candidates sel) k) as [c Hc].
  { rewrite Hlen. eapply lookup_lt_Some; eauto. }
  simpl. rewrite Hc. simpl. now rewrite (Hall _ _ Hc).
Qed.

(** X24: requesting every step gives the full graph.  When the requested
    names are, in some order, the names of all the steps,
    [BuildPartialGraph] returns the graph of [BuildGraph] on the whole
    input. *)
Theorem BuildPartialGraph_all_names (steps : list Step)
    (names0 : list string) :
  Permutation names0 (map Name steps) ->
  BuildPartialGraph steps names0 = Some (inl (BuildGraph steps)).
Proof.
  intros Hperm.
  destruct names0 as [|n names0].
  { apply Permutation_nil in Hperm. now destruct steps. }
  assert (Hnil : names (seed steps (n :: names0)) = []).
  { apply (count_occ_inv_nil string_dec). intros x.
    rewrite seed_names_count, stepsNamed_count.
    rewrite (proj1 (Permutation_count_occ string_dec _ _) Hperm x). lia. }
  destruct (seed_marked steps (n :: names0)) as [Hlen Hsum].
  rewrite Hnil in Hsum. simpl in Hsum.
  apply Permutation_length in Hperm. rewrite List.length_map in Hperm.
  simpl in Hperm.
  destruct (marked_full steps (candidates (seed steps (n :: names0))))
    as [Hpick Hall]; [trivial|lia|].
  unfold BuildPartialGraph, BuildPartialGraphFuel. simpl length at 1.
  cbn [Nat.eqb]. rewrite Hnil. simpl. rewrite <- Hperm. simpl.
  rewrite (closePass_all_flagged _ _ Hlen Hall). simpl.
  now rewrite targetedSteps_filter, Hpick.
Qed.

Lemma BuildPartialGraph_all_names_witness :
  BuildPartialGraph
    [ {| Name := "root"; Requires := [];
         Creates := [InternalImageLink "root"] |};
      {| Name := "src"; Requires := [InternalImageLink "root"];
         Creates := [InternalImageLink "src"] |} ] ["src"; "root"]
  = Some (inl (BuildGraph
    [ {| Name := "root"; Requires := [];
         Creates := [InternalImageLink "root"] |};
      {| Name := "src"; Requires := [InternalImageLink "root"];
         Creates := [InternalImageLink "src"] |} ])).
Proof.
  apply (BuildPartialGraph_all_names
    [ {| Name := "root"; Requires := [];
         Creates := [InternalImageLink "root"] |};
      {| Name := "src"; Requires := [InternalImageLink "root"];
         Creates := [InternalImageLink "src"] |} ] ["src"; "root"]).
  simpl. apply perm_swap.
Defined.

Lemma Matches_subst a b d : Matches a b = true -> Matches a d = Matches b d.
Proof.
  destruct a as [[ns1 n1 t1]|s1| | |], b as [[ns2 n2 t2]|s2| | |];
    simpl; try discriminate; trivial.
  - rewrite !andb_true_iff, !String.eqb_eq. now intros [[-> ->] ->].
  - rewrite String.eqb_eq. now intros ->.
Qed.

(** X25: links that match are interchangeable.  [Matches] is transitive,
    a link that matches another matches the same links as the other, and
    [HasAnyLinks] gives the same answer when the links of either list are
    replaced by links that match them. *)
Theorem Matches_interchangeable (a b : StepLink) :
  Matches a b = true ->
  (forall c, Matches b c = true -> Matches a c = true) /\
  (forall d, Matches a d = Matches b d) /\
  (forall d, Matches d a = Matches d b) /\
  (forall ls ks, HasAnyLinks (a :: ls) ks = HasAnyLinks (b :: ls) ks) /\
  (forall ls ks, HasAnyLinks ls (a :: ks) = HasAnyLinks ls (b :: ks)).
Proof.
  intros Hab.
  assert (Hd : forall d, Matches a d = Matches b d)
    by (intros d; now apply Matches_subst).
  assert (Hd' : forall d, Matches d a = Matches d b)
    by (intros d; now rewrite (Matches_sym d a), (Matches_sym d b)).
  split; [|split; [|split; [|split]]]; trivial.
  - intros c Hbc. now rewrite Hd.
  - intros ls ks. unfold HasAnyLinks.
    induction ks as [|k ks IH]; simpl in *; trivial. now rewrite IH, Hd.
  - intros ls ks. unfold HasAnyLinks. simpl. f_equal.
    induction ls as [|l ls IH]; simpl in *; trivial. now rewrite IH, Hd'.
Qed.

Lemma Matches_interchangeable_witness :
  Matches (InternalImageLink "src") (InternalImageLink "src") = true.
Proof.
  exact (proj1 (Matches_interchangeable (InternalImageLink "src")
                  (InternalImageLink "src") eq_refl)
               (InternalImageLink "src") eq_refl).
Defined.

(** ** [createReleaseConfigMap] and [Done] *)

Lemma releaseListCluster_keeps :
  ReleaseImagesTag.keepsConfigMaps ReleaseImagesTag.listCluster.
Proof.
  intros ns cm w _. simpl.
  destruct (List.find _ w) as [e|] eqn:Hf; simpl.
  - rewrite Hf. eauto.
  - rewrite !String.eqb_refl. simpl. eauto.
Qed.

(** X26: [createReleaseConfigMap] and [Done] agree on the config map.  On a
    cluster that keeps the config maps created in it, when
    [createReleaseConfigMap] is not dry, returns no error and has called
    [Create], [Done] answers true with no error afterwards: it looks for
    the name [release] in the namespace of the job, where the config map
    was created. *)
Theorem createReleaseConfigMap_then_Done {World : Type}
    (env : ReleaseEnv World) (st st' : ReleaseImagesTag.state World) :
  ReleaseImagesTag.keepsConfigMaps env ->
  ReleaseImagesTag.createReleaseConfigMap env false st = (None, st') ->
  ReleaseImagesTag.configMapsCreated (ReleaseImagesTag.events st')
  <> ReleaseImagesTag.configMapsCreated (ReleaseImagesTag.events st) ->
  fst (ReleaseImagesTag.Done env st') = (true, None).
Proof.
  intros Hkeep.
  assert (Hwrite : forall imageBase rpmRepo st0,
    ReleaseImagesTag.writeConfigMap env false imageBase rpmRepo st0
    = (None, st') ->
    fst (ReleaseImagesTag.Done env st') = (true, None)).
  { intros imageBase rpmRepo st0. unfold ReleaseImagesTag.writeConfigMap.
    pose proof (Hkeep (ReleaseImagesTag.JobNamespace st0)
      {| ConfigMapObjectName := ConfigMapName;
         ConfigMapNamespace := ReleaseImagesTag.JobNamespace st0;
         Data := <["image-base"%string := imageBase]>
                   (<["rpm-repo"%string := rpmRepo]> ∅) |}
      (ReleaseImagesTag.world st0)) as Hget.
    destruct (createConfigMap env _ _ _) as [res w]. simpl in Hget.
    assert (Hok : match res with
                  | inl _ => True
                  | inr err => IsAlreadyExists err = true
                  end ->
                  fst (ReleaseImagesTag.Done env
                         (ReleaseImagesTag.call
                            (CalledCreateConfigMap
                               (ReleaseImagesTag.JobNamespace st0)
                               ConfigMapName
                               (<["image-base"%string := imageBase]>
                                  (<["rpm-repo"%string := rpmRepo]> ∅)))
                            w st0)) = (true, None)).
    { intros Hres. destruct (Hget Hres) as [found Hfound].
      unfold ReleaseImagesTag.Done. simpl.
      destruct (getConfigMap env _ _ w) as [r w']. simpl in Hfound.
      now subst r. }
    destruct res as [cm|e].
    - intros [= <-]. now apply Hok.
    - destruct (IsAlreadyExists e) eqn:Hae; simpl; [|discriminate].
      intros [= <-]. now apply Hok. }
  unfold ReleaseImagesTag.createReleaseConfigMap.
  cbn -[ReleaseImagesTag.writeConfigMap].
  destruct (getImageStream env _ _ _) as [[origin|e0] w1]; [|discriminate].
  destruct (Nat.eqb _ 0); [discriminate|].
  destruct (getRouteHost env (ReleaseImagesTag.JobNamespace st) _ _)
    as [[host|e] w2]; cbn -[ReleaseImagesTag.writeConfigMap].
  { intros [= <-] Hnew. exfalso. apply Hnew. simpl.
    rewrite !configMapsCreated_app. simpl. now rewrite !app_nil_r. }
  destruct (IsNotFound e); cbn -[ReleaseImagesTag.writeConfigMap];
    [|discriminate].
  destruct (getRouteHost env (ReleaseImagesTag.ConfigNamespace st) _ _)
    as [[host|e3] w3]; [|discriminate].
  intros H _. now apply (Hwrite _ _ _ H).
Qed.

Lemma createReleaseConfigMap_then_Done_witness :
  fst (ReleaseImagesTag.Done ReleaseImagesTag.listCluster
         (snd (ReleaseImagesTag.createReleaseConfigMap
                 ReleaseImagesTag.listCluster false
                 ReleaseImagesTag.listState)))
  = (true, None).
Proof.
  apply (createReleaseConfigMap_then_Done ReleaseImagesTag.listCluster
           ReleaseImagesTag.listState).
  - exact releaseListCluster_keeps.
  - reflexivity.
  - simpl. discriminate.
Defined.
